(** * coquilib / cli.h : the command-line option parser

    A shallow embedding of [cli::Parser] (src/cli/cli.h) and the properties
    of its specification that concern the numeric-literal check, the token
    scan, option application, the required-option pass and path validation.

    Conventions of the embedding

    - a C string ([const char*] to a NUL-terminated buffer) is a [string];
      a [const char*] variable that may be null is an [option string];
    - [argv] is a [list string] and [argc] its length; the pointer
      [argv + i] is the suffix that starts at index [i];
    - the caller's variables, reached through [Option::valuePointer], live
      in a [Memory]: one region per C++ type the convenience constructors
      accept ([bool*], [int*], [float*], [const char**]), addressed by [nat].
      Two options holding the same address alias the same variable;
    - [CLI_LOG_ERROR] appends a [Diagnostic] to the error stream;
    - [atoi], [atof] and [fopen] belong to the C library: they are
      parameters of the development. *)

From Stdlib Require Import ZArith Lia Bool Ascii String.
From stdpp Require Import base tactics option list strings functions.

Local Open Scope string_scope.
Local Open Scope Z_scope.

(** ** Numeric literals *)

(** [Parser::isNumeric], the body of the [for] loop at index [i], on the
    characters from [i] on.  The three flags are the locals (and the
    by-value parameter) the loop assigns. *)
Fixpoint isNumeric_from (i : nat) (str : string)
    (floatingPoint beginExponent foundDecimal : bool) : bool :=
  match str with
  | EmptyString => true
  | String c rest =>
      match c with
      | "0" | "1" | "2" | "3" | "4" | "5" | "6" | "7" | "8" | "9" =>
          isNumeric_from (S i) rest floatingPoint beginExponent foundDecimal
      | "-" | "+" =>
          if (i =? 0)%nat || (floatingPoint && beginExponent)
          then isNumeric_from (S i) rest floatingPoint beginExponent foundDecimal
          else false
      | "." =>
          if floatingPoint && negb foundDecimal
          then isNumeric_from (S i) rest floatingPoint beginExponent true
          else false
      | "e" | "E" =>
          (* beginExponent = true; floatingPoint = false; when floatingPoint,
             then [return false] whatever the flags are *)
          let '(_, _) :=
            if floatingPoint then (true, false)
            else (beginExponent, floatingPoint) in
          false
      | _ => false
      end%char
  end.

Definition isNumeric (str : string) (floatingPoint : bool) : bool :=
  isNumeric_from 0 str floatingPoint false false.

(** Character classes of the [switch]. *)
Definition is_digit (c : ascii) : bool :=
  match c with
  | "0" | "1" | "2" | "3" | "4" | "5" | "6" | "7" | "8" | "9" => true
  | _ => false
  end%char.

Definition is_sign (c : ascii) : bool :=
  match c with "-" | "+" => true | _ => false end%char.

Definition is_exponent_marker (c : ascii) : bool :=
  match c with "e" | "E" => true | _ => false end%char.

Fixpoint all_chars (P : ascii → bool) (s : string) : bool :=
  match s with
  | EmptyString => true
  | String c rest => P c && all_chars P rest
  end.

Fixpoint some_char (P : ascii → bool) (s : string) : bool :=
  match s with
  | EmptyString => false
  | String c rest => P c || some_char P rest
  end.

(** The integer literals of the specification: one or more digits after an
    optional single sign. *)
Definition int_literal_spec (s : string) : Prop :=
  ∃ sign body, s = sign +:+ body
    ∧ (sign = "" ∨ sign = "+" ∨ sign = "-")
    ∧ body ≠ "" ∧ all_chars is_digit body = true.

(** What the loop accepts for an Int option: as above, with no demand that
    a digit be present. *)
Definition int_literal_scanned (s : string) : Prop :=
  ∃ sign body, s = sign +:+ body
    ∧ (sign = "" ∨ sign = "+" ∨ sign = "-")
    ∧ all_chars is_digit body = true.

(** ** Option declarations *)

Module OptionType.

(** [enum class Option::Type]. *)
Inductive t : Set :=
  Flag | FlagCount | Int | Float | String | Path | PathExisting.

End OptionType.

Global Instance OptionType_eq_dec : EqDecision OptionType.t.
Proof. solve_decision. Defined.

(** [struct Option].  [valuePointer] is the address of the caller's variable
    in the region of its type. *)
Record Option : Set := mkOption {
  type : OptionType.t;
  shortName : ascii;
  longName : string;
  description : string;
  isRequired : bool;
  isSet : bool;
  valuePointer : nat
}.

Definition requiresParameter (opt : Option) : bool :=
  bool_decide (type opt ≠ OptionType.Flag)
  && bool_decide (type opt ≠ OptionType.FlagCount).

(** The assignment [opt.isSet = v]. *)
Definition set_isSet (v : bool) (opt : Option) : Option :=
  {| type := type opt; shortName := shortName opt; longName := longName opt;
     description := description opt; isRequired := isRequired opt;
     isSet := v; valuePointer := valuePointer opt |}.

(** The convenience constructors. *)
Definition OptionFlag c l d (vp : nat) : Option :=
  mkOption OptionType.Flag c l d false false vp.
Definition OptionFlagCount c l d (vp : nat) : Option :=
  mkOption OptionType.FlagCount c l d false false vp.
Definition OptionInt c l d (required : bool) (vp : nat) : Option :=
  mkOption OptionType.Int c l d required false vp.
Definition OptionFloat c l d (required : bool) (vp : nat) : Option :=
  mkOption OptionType.Float c l d required false vp.
Definition OptionString c l d (required : bool) (vp : nat) : Option :=
  mkOption OptionType.String c l d required false vp.
Definition OptionPath c l d (required : bool) (vp : nat) : Option :=
  mkOption OptionType.Path c l d required false vp.
Definition OptionPathExisting c l d (required : bool) (vp : nat) : Option :=
  mkOption OptionType.PathExisting c l d required false vp.

(** The messages of [CLI_LOG_ERROR], each with the arguments of its format. *)
Inductive Diagnostic : Set :=
  | ErrRequired (c : ascii) (l : string)
  | ErrNotReadable (c : ascii) (l : string)
  | ErrDuplicate (c : ascii) (l : string)
  | ErrMissingParameter (c : ascii) (l : string)
  | ErrInvalidInteger (arg : string) (c : ascii) (l : string)
  | ErrInvalidFloat (arg : string) (c : ascii) (l : string)
  | ErrMiddleOfFlagList (c : ascii)
  | ErrUnknownShort (c : ascii)
  | ErrUnknownLong (arg : string).

(** [int] is 32 bits wide.  Signed overflow is undefined in C++; the
    embedding fixes the two's complement result. *)
Definition INT_MIN : Z := -2147483648.
Definition INT_MAX : Z := 2147483647.
Definition to_int (z : Z) : Z := (z - INT_MIN) mod 2 ^ 32 + INT_MIN.

(** [struct Parser]: the private members. *)
Record Parser : Set := mkParser {
  options : list Option;
  remaining : list string;
  executableName : option string
}.

(** [Parser(std::initializer_list<Option>)]. *)
Definition newParser (opts : list Option) : Parser := mkParser opts [] None.

Definition set_options (opts : list Option) (p : Parser) : Parser :=
  mkParser opts (remaining p) (executableName p).

Section Parser.

(** The C library: the numeric conversions ([atof] together with the
    conversion of its [double] to the [float] that is assigned), and whether
    [fopen(path, "rb")] returns a stream ([None] is the null path). *)
Variable float : Type.
Variable atoi : string → Z.
Variable atof : string → float.
Variable fopen_rb : option string → bool.

(** The caller's variables. *)
Record Memory : Type := mkMemory {
  bools : nat → bool;
  ints : nat → Z;
  floats : nat → float;
  strs : nat → option string
}.

(** What the parser acts on besides its own members. *)
Record World : Type := mkWorld {
  heap : Memory;
  stderr : list Diagnostic
}.

Definition CLI_LOG_ERROR (d : Diagnostic) (w : World) : World :=
  mkWorld (heap w) (stderr w ++ [d]).

Definition store_bool (a : nat) (v : bool) (w : World) : World :=
  let m := heap w in
  mkWorld (mkMemory (<[a := v]> (bools m)) (ints m) (floats m) (strs m)) (stderr w).
Definition store_int (a : nat) (v : Z) (w : World) : World :=
  let m := heap w in
  mkWorld (mkMemory (bools m) (<[a := v]> (ints m)) (floats m) (strs m)) (stderr w).
Definition store_float (a : nat) (v : float) (w : World) : World :=
  let m := heap w in
  mkWorld (mkMemory (bools m) (ints m) (<[a := v]> (floats m)) (strs m)) (stderr w).
Definition store_str (a : nat) (v : option string) (w : World) : World :=
  let m := heap w in
  mkWorld (mkMemory (bools m) (ints m) (floats m) (<[a := v]> (strs m))) (stderr w).

(** ** The parser *)

(** [Parser::applyOption(opt, argc, argv)], with [argc = length argv].
    Returns the result, the option as the call leaves it, and the world.
    [argv[1]] past the end of the vector is the null pointer. *)
Definition applyOption (opt : Option) (argv : list string) (w : World)
    : Z * Option * World :=
  let argc := Z.of_nat (length argv) in
  if bool_decide (type opt ≠ OptionType.FlagCount) && isSet opt then
    (-1, opt, CLI_LOG_ERROR (ErrDuplicate (shortName opt) (longName opt)) w)
  else
    let opt := set_isSet true opt in
    if requiresParameter opt && (argc <? 2) then
      (-1, opt, CLI_LOG_ERROR (ErrMissingParameter (shortName opt) (longName opt)) w)
    else
      let argParam : option string := argv !! 1%nat in
      match type opt with
      | OptionType.Flag => (0, opt, store_bool (valuePointer opt) true w)
      | OptionType.FlagCount =>
          (0, opt, store_int (valuePointer opt)
                     (to_int (ints (heap w) (valuePointer opt) + 1)) w)
      | OptionType.Int =>
          match argParam with
          | Some s =>
              if negb (isNumeric s false) then
                (-1, opt, CLI_LOG_ERROR
                            (ErrInvalidInteger s (shortName opt) (longName opt)) w)
              else (1, opt, store_int (valuePointer opt) (atoi s) w)
          | None => (-1, opt, w) (* excluded by the test on argc *)
          end
      | OptionType.Float =>
          match argParam with
          | Some s =>
              if negb (isNumeric s true) then
                (-1, opt, CLI_LOG_ERROR
                            (ErrInvalidFloat s (shortName opt) (longName opt)) w)
              else (1, opt, store_float (valuePointer opt) (atof s) w)
          | None => (-1, opt, w) (* excluded by the test on argc *)
          end
      | OptionType.String | OptionType.Path | OptionType.PathExisting =>
          (1, opt, store_str (valuePointer opt) argParam w)
      end.

(** [for(Option& opt : options)] of the short-option branch, for the
    character [c = arg[i]]; [lastChar] is [!(i < strlen(arg) - 1)].
    Returns the options as the loop leaves them, [handled], the world, and
    [Some result] when the function returned from inside the loop. *)
Fixpoint shortOptionLoop (c : ascii) (lastChar : bool) (argv : list string)
    (opts : list Option) (handled : bool) (w : World)
    : list Option * bool * World * option Z :=
  match opts with
  | [] => ([], handled, w, None)
  | opt :: rest =>
      if bool_decide (shortName opt = c) then
        if requiresParameter opt && negb lastChar then
          (opt :: rest, handled,
           CLI_LOG_ERROR (ErrMiddleOfFlagList (shortName opt)) w, Some (-1))
        else
          let '(result, opt', w') := applyOption opt argv w in
          if negb (result =? 0) then (opt' :: rest, true, w', Some result)
          else
            let '(rest', handled', w'', ret) :=
              shortOptionLoop c lastChar argv rest true w' in
            (opt' :: rest', handled', w'', ret)
      else
        let '(rest', handled', w', ret) :=
          shortOptionLoop c lastChar argv rest handled w in
        (opt :: rest', handled', w', ret)
  end.

(** [for(int i = 1; i < strlen(arg); ++i)], on the characters from [i] on;
    falling out of the loop reaches the final [return 0]. *)
Fixpoint clusterLoop (chars : string) (argv : list string)
    (opts : list Option) (w : World) : Z * list Option * World :=
  match chars with
  | EmptyString => (0, opts, w)
  | String c chars' =>
      let lastChar := bool_decide (chars' = "") in
      let '(opts', handled, w', ret) :=
        shortOptionLoop c lastChar argv opts false w in
      match ret with
      | Some result => (result, opts', w')
      | None =>
          if negb handled then (-1, opts', CLI_LOG_ERROR (ErrUnknownShort c) w')
          else clusterLoop chars' argv opts' w'
      end
  end.

(** [for(Option& opt : options)] of the long-option branch: [None] when no
    [longName] compares equal to [name = arg + 2]. *)
Fixpoint longOptionLoop (name : string) (argv : list string)
    (opts : list Option) (w : World) : option (Z * list Option * World) :=
  match opts with
  | [] => None
  | opt :: rest =>
      if bool_decide (name = longName opt) then
        let '(result, opt', w') := applyOption opt argv w in
        Some (result, opt' :: rest, w')
      else
        match longOptionLoop name argv rest w with
        | Some (result, rest', w') => Some (result, opt :: rest', w')
        | None => None
        end
  end.

(** [Parser::handleOption(argc, argv)] with [argv = arg :: more]. *)
Definition handleOption (arg : string) (more : list string)
    (p : Parser) (w : World) : Z * Parser * World :=
  match arg with
  | String "-" (String c1 name as cluster) =>
      (* strlen(arg) > 1 && arg[0] == '-' *)
      if negb (Ascii.eqb c1 "-") then
        let '(result, opts', w') := clusterLoop cluster (arg :: more) (options p) w in
        (result, set_options opts' p, w')
      else
        match longOptionLoop name (arg :: more) (options p) w with
        | Some (result, opts', w') => (result, set_options opts' p, w')
        | None => (-1, p, CLI_LOG_ERROR (ErrUnknownLong arg) w)
        end
  | _ =>
      (0, mkParser (options p) (remaining p ++ [arg]) (executableName p), w)
  end.

(** The first loop of [Parser::parse], on [argv + i]; [skip] is the number
    of indices that [i += result] still has to pass over. *)
Fixpoint parseLoop (skip : nat) (argv : list string) (p : Parser) (w : World)
    : bool * Parser * World :=
  match argv with
  | [] => (true, p, w)
  | arg :: more =>
      match skip with
      | S skip' => parseLoop skip' more p w
      | O =>
          let '(result, p', w') := handleOption arg more p w in
          if result <? 0 then (false, p', w')
          else parseLoop (Z.to_nat result) more p' w'
      end
  end.

(** The second loop of [Parser::parse]. *)
Fixpoint requiredLoop (opts : list Option) (w : World) : bool * World :=
  match opts with
  | [] => (true, w)
  | opt :: rest =>
      if isRequired opt && negb (isSet opt) then
        (false, CLI_LOG_ERROR (ErrRequired (shortName opt) (longName opt)) w)
      else requiredLoop rest w
  end.

(** [Parser::parse(argc, argv)]. *)
Definition parse (argv : list string) (p : Parser) (w : World)
    : bool * Parser * World :=
  let p := mkParser (options p) (remaining p) (argv !! 0%nat) in
  let '(scanned, p', w') := parseLoop 0 (tail argv) p w in
  if negb scanned then (false, p', w')
  else
    let '(ok, w'') := requiredLoop (options p') w' in
    (ok, p', w'').

(** [Parser::checkExistsReadable]. *)
Definition checkExistsReadable (path : option string) : bool :=
  if fopen_rb path then true else false.

(** The loop of [Parser::validatePathOptions]. *)
Fixpoint validateLoop (opts : list Option) (valid : bool) (w : World)
    : bool * World :=
  match opts with
  | [] => (valid, w)
  | opt :: rest =>
      if bool_decide (type opt = OptionType.PathExisting)
         && negb (checkExistsReadable (strs (heap w) (valuePointer opt))) then
        validateLoop rest false
          (CLI_LOG_ERROR (ErrNotReadable (shortName opt) (longName opt)) w)
      else validateLoop rest valid w
  end.

Definition validatePathOptions (p : Parser) (w : World) : bool * World :=
  validateLoop (options p) true w.

End Parser.

Arguments mkMemory {float}.
Arguments bools {float}.
Arguments ints {float}.
Arguments floats {float}.
Arguments strs {float}.
Arguments mkWorld {float}.
Arguments heap {float}.
Arguments stderr {float}.
Arguments CLI_LOG_ERROR {float}.
Arguments store_bool {float}.
Arguments store_int {float}.
Arguments store_float {float}.
Arguments store_str {float}.
Arguments applyOption {float}.
Arguments shortOptionLoop {float}.
Arguments clusterLoop {float}.
Arguments longOptionLoop {float}.
Arguments handleOption {float}.
Arguments parseLoop {float}.
Arguments requiredLoop {float}.
Arguments parse {float}.
Arguments validateLoop {float}.
Arguments validatePathOptions {float}.

(** ** The vocabulary of the specification *)

(** A declaration without its mutable flag: what an option is, whatever
    the parser has done to it. *)
Definition decl (opt : Option) : Option := set_isSet false opt.

(** "A token not starting with [-], or equal to exactly [-] alone". *)
Definition is_positional (tok : string) : bool :=
  negb (String.prefix "-" tok) || bool_decide (tok = "-").

(** Whether the option a cluster ends with takes a parameter. *)
Fixpoint cluster_takes_parameter (opts : list Option) (chars : string) : bool :=
  match chars with
  | EmptyString => false
  | String c EmptyString =>
      existsb (λ o, bool_decide (shortName o = c) && requiresParameter o) opts
  | String _ chars' => cluster_takes_parameter opts chars'
  end.

(** Whether an option token takes the token after it as its parameter: a
    long option whose (first) declaration requires one, or a cluster whose
    final character names an option that requires one. *)
Definition takes_parameter (opts : list Option) (tok : string) : bool :=
  match tok with
  | String "-" (String c1 name as cluster) =>
      if Ascii.eqb c1 "-" then
        match find (λ o, bool_decide (name = longName o)) opts with
        | Some o => requiresParameter o
        | None => false
        end
      else cluster_takes_parameter opts cluster
  | _ => false
  end.

(** The tokens the scan classifies: all of them except those an option
    before them takes as its parameter ([skip] tokens are passed over
    first). *)
Fixpoint classified (opts : list Option) (skip : nat) (toks : list string)
    : list string :=
  match toks with
  | [] => []
  | tok :: rest =>
      match skip with
      | S skip' => classified opts skip' rest
      | O => tok :: classified opts (if takes_parameter opts tok then 1 else 0) rest
      end
  end.

(** The positional tokens among those the scan classifies, in order. *)
Definition positional_tokens (opts : list Option) (skip : nat) (toks : list string)
    : list string :=
  List.filter is_positional (classified opts skip toks).

Fixpoint count_char (c : ascii) (s : string) : nat :=
  match s with
  | EmptyString => O
  | String c' rest => ((if bool_decide (c' = c) then 1 else 0) + count_char c rest)%nat
  end.

(** How often a token invokes an option: once per occurrence of its short
    name in a cluster, once for its long name. *)
Definition uses (o : Option) (tok : string) : nat :=
  match tok with
  | String "-" (String c1 name as cluster) =>
      if Ascii.eqb c1 "-" then (if bool_decide (name = longName o) then 1 else 0)%nat
      else count_char (shortName o) cluster
  | _ => O
  end.

Definition invocations (o : Option) (opts : list Option) (toks : list string) : nat :=
  sum_list (uses o <$> classified opts 0 toks).

(** The option at index [k] is declared under names no other declaration
    uses (the invariant the data model asks of the caller). *)
Definition names_unique_at (k : nat) (o : Option) (opts : list Option) : Prop :=
  opts !! k = Some o
  ∧ ∀ j o', opts !! j = Some o' → j ≠ k →
      shortName o' ≠ shortName o ∧ longName o' ≠ longName o.

(** The option at index [k] is the only one bound to its [int] variable. *)
Definition int_target_exclusive_at (k : nat) (o : Option) (opts : list Option) : Prop :=
  ∀ j o', opts !! j = Some o' → j ≠ k →
    (type o' = OptionType.Int ∨ type o' = OptionType.FlagCount) →
    valuePointer o' ≠ valuePointer o.

(** The diagnostics of a parameter that is missing or not numeric, and the
    names they carry. *)
Definition parameter_error (d : Diagnostic) : option (ascii * string) :=
  match d with
  | ErrMissingParameter c l | ErrInvalidInteger _ c l | ErrInvalidFloat _ c l =>
      Some (c, l)
  | _ => None
  end.

(** The options [validatePathOptions] checks, and the diagnostic of a
    failed check. *)
Definition is_PathExisting (o : Option) : bool :=
  bool_decide (type o = OptionType.PathExisting).

(** "The bound path can be opened for reading": [fopen(path, "rb")] on the
    string the option's variable holds does not answer [NULL]. *)
Definition path_readable {float : Type} (fopen_rb : option string → bool)
    (m : Memory float) (o : Option) : bool :=
  fopen_rb (strs m (valuePointer o)).

Definition not_readable (o : Option) : Diagnostic :=
  ErrNotReadable (shortName o) (longName o).

(** An option that is required and not set. *)
Definition missing (o : Option) : bool := isRequired o && negb (isSet o).

(** [opt.as<int>()++] *)
Definition increment (z : Z) : Z := to_int (z + 1).

(** What [n] invocations do to the option [o] at index [k] and to the
    [int] variable it is bound to: the option is set as soon as it is
    invoked; an option that is not a FlagCount can be invoked once, and only
    if it was not set; a FlagCount that alone is bound to its variable
    increments it [n] times. *)
Definition option_effect {float : Type} (k : nat) (o : Option) (n : nat)
    (opts : list Option) (w : World float)
    (opts' : list Option) (w' : World float) : Prop :=
  opts' !! k = Some (match n with O => o | S _ => set_isSet true o end)
  ∧ (type o ≠ OptionType.FlagCount → n ≠ O → n = 1%nat ∧ isSet o = false)
  ∧ (type o = OptionType.FlagCount → int_target_exclusive_at k o opts →
     ints (heap w') (valuePointer o)
     = Nat.iter n increment (ints (heap w) (valuePointer o))).

(** A diagnostic about a parameter names a declared option whose [isSet]
    is true. *)
Definition reported_option_is_set (d : Diagnostic) (opts : list Option) : Prop :=
  ∀ c l, parameter_error d = Some (c, l) →
    ∃ o, o ∈ opts ∧ shortName o = c ∧ longName o = l ∧ isSet o = true.

(** The diagnostics of the scan (the others come from the required pass
    and from path validation). *)
Definition scan_diagnostic (d : Diagnostic) : Prop :=
  match d with
  | ErrRequired _ _ | ErrNotReadable _ _ => False
  | _ => True
  end.

(** What the scan reports when it fails. *)
Definition scan_report (d : Diagnostic) (opts : list Option) : Prop :=
  scan_diagnostic d ∧ reported_option_is_set d opts.

(** Two states of the same declarations. *)
Definition same_decls (opts opts' : list Option) : Prop :=
  Forall2 (λ o o', decl o = decl o') opts opts'.

(** The option writes to the [int] variable at address [a]. *)
Definition int_bound_at (a : nat) (o : Option) : Prop :=
  (type o = OptionType.Int ∨ type o = OptionType.FlagCount) ∧ valuePointer o = a.

(** The outcomes of [applyOption], one constructor per [return]. *)
Inductive ApplyOutcome {float : Type} (atoi : string → Z) (atof : string → float)
    (opt : Option) (argv : list string) (w : World float)
    : Z → Option → World float → Prop :=
  | ApplyDuplicate :
      type opt ≠ OptionType.FlagCount → isSet opt = true →
      ApplyOutcome atoi atof opt argv w (-1) opt
        (CLI_LOG_ERROR (ErrDuplicate (shortName opt) (longName opt)) w)
  | ApplyMissing :
      requiresParameter opt = true → isSet opt = false → argv !! 1%nat = None →
      ApplyOutcome atoi atof opt argv w (-1) (set_isSet true opt)
        (CLI_LOG_ERROR (ErrMissingParameter (shortName opt) (longName opt)) w)
  | ApplyInvalidInteger s :
      type opt = OptionType.Int → isSet opt = false → argv !! 1%nat = Some s →
      isNumeric s false = false →
      ApplyOutcome atoi atof opt argv w (-1) (set_isSet true opt)
        (CLI_LOG_ERROR (ErrInvalidInteger s (shortName opt) (longName opt)) w)
  | ApplyInvalidFloat s :
      type opt = OptionType.Float → isSet opt = false → argv !! 1%nat = Some s →
      isNumeric s true = false →
      ApplyOutcome atoi atof opt argv w (-1) (set_isSet true opt)
        (CLI_LOG_ERROR (ErrInvalidFloat s (shortName opt) (longName opt)) w)
  | ApplyFlag :
      type opt = OptionType.Flag → isSet opt = false →
      ApplyOutcome atoi atof opt argv w 0 (set_isSet true opt)
        (store_bool (valuePointer opt) true w)
  | ApplyFlagCount :
      type opt = OptionType.FlagCount →
      ApplyOutcome atoi atof opt argv w 0 (set_isSet true opt)
        (store_int (valuePointer opt)
           (to_int (ints (heap w) (valuePointer opt) + 1)) w)
  | ApplyInt s :
      type opt = OptionType.Int → isSet opt = false → argv !! 1%nat = Some s →
      isNumeric s false = true →
      ApplyOutcome atoi atof opt argv w 1 (set_isSet true opt)
        (store_int (valuePointer opt) (atoi s) w)
  | ApplyFloat s :
      type opt = OptionType.Float → isSet opt = false → argv !! 1%nat = Some s →
      isNumeric s true = true →
      ApplyOutcome atoi atof opt argv w 1 (set_isSet true opt)
        (store_float (valuePointer opt) (atof s) w)
  | ApplyString s :
      (type opt = OptionType.String ∨ type opt = OptionType.Path
       ∨ type opt = OptionType.PathExisting) →
      isSet opt = false → argv !! 1%nat = Some s →
      ApplyOutcome atoi atof opt argv w 1 (set_isSet true opt)
        (store_str (valuePointer opt) (Some s) w).

(** The runs of [shortOptionLoop], one constructor per path through the
    loop body. *)
Inductive ShortRun {float : Type} (atoi : string → Z) (atof : string → float)
    (c : ascii) (lastChar : bool) (argv : list string)
    : list Option → bool → World float →
      list Option → bool → World float → option Z → Prop :=
  | ShortRunEnd handled w :
      ShortRun atoi atof c lastChar argv [] handled w [] handled w None
  | ShortRunSkip opt rest handled w rest' handled' w' ret :
      shortName opt ≠ c →
      ShortRun atoi atof c lastChar argv rest handled w rest' handled' w' ret →
      ShortRun atoi atof c lastChar argv
        (opt :: rest) handled w (opt :: rest') handled' w' ret
  | ShortRunMiddle opt rest handled w :
      shortName opt = c → requiresParameter opt = true → lastChar = false →
      ShortRun atoi atof c lastChar argv (opt :: rest) handled w
        (opt :: rest) handled
        (CLI_LOG_ERROR (ErrMiddleOfFlagList (shortName opt)) w) (Some (-1))
  | ShortRunReturn opt rest handled w result opt' w' :
      shortName opt = c → requiresParameter opt && negb lastChar = false →
      ApplyOutcome atoi atof opt argv w result opt' w' → result ≠ 0 →
      ShortRun atoi atof c lastChar argv (opt :: rest) handled w
        (opt' :: rest) true w' (Some result)
  | ShortRunApply opt rest handled w opt' w' rest' handled' w'' ret :
      shortName opt = c → requiresParameter opt && negb lastChar = false →
      ApplyOutcome atoi atof opt argv w 0 opt' w' →
      ShortRun atoi atof c lastChar argv rest true w' rest' handled' w'' ret →
      ShortRun atoi atof c lastChar argv (opt :: rest) handled w
        (opt' :: rest') handled' w'' ret.

(** What one call of [handleOption] reports: an error and one diagnostic, or
    the number of tokens the option takes. *)
Definition step_result {float : Type} (argv : list string) (takes : bool)
    (w : World float) (r : Z) (opts' : list Option) (w' : World float) : Prop :=
  (r = -1 ∧ ∃ d, stderr w' = (stderr w ++ [d])%list ∧ scan_report d opts')
  ∨ (stderr w' = stderr w ∧ r = (if takes then 1 else 0)
     ∧ (r = 1 → ∃ s, argv !! 1%nat = Some s)).

(** The parameter [next] is bound to the variable of [o]. *)
Definition bound_parameter {float : Type} (atoi : string → Z) (atof : string → float)
    (o : Option) (next : string) (m : Memory float) : Prop :=
  match type o with
  | OptionType.Int => ints m (valuePointer o) = atoi next
  | OptionType.Float => floats m (valuePointer o) = atof next
  | OptionType.String | OptionType.Path | OptionType.PathExisting =>
      strs m (valuePointer o) = Some next
  | OptionType.Flag | OptionType.FlagCount => False
  end.

(** ** Fixtures *)

(** A C library for the examples: [atoi] reads an optional sign and the
    decimal digits after it, the float of a literal is kept as its text, and
    only the listed paths open. *)
Fixpoint digits_value (acc : Z) (s : string) : Z :=
  match s with
  | EmptyString => acc
  | String c rest =>
      if is_digit c
      then digits_value (10 * acc + (Z.of_nat (nat_of_ascii c) - 48)) rest
      else acc
  end.

Definition test_atoi (s : string) : Z :=
  match s with
  | String "-" rest => - digits_value 0 rest
  | String "+" rest => digits_value 0 rest
  | _ => digits_value 0 s
  end.

Definition test_atof (s : string) : string := s.

Definition test_fopen (readable : list string) (path : option string) : bool :=
  match path with
  | Some f => bool_decide (f ∈ readable)
  | None => false
  end.

(** The caller's variables, every [int] holding [count]. *)
Definition test_world (count : Z) : World string :=
  mkWorld (mkMemory (λ _, false) (λ _, count) (λ _, "0") (λ _, None)) [].

(** The parsers of src/tests/cli_test.cpp: "Remaining args" (and the two
    "Short option string parameter" cases), "Long option required string
    parameter", "Option types" and "Path validation". *)
Definition test_verbose : Option :=
  OptionFlagCount "v" "verbose" "Verbosity of the thing" 0.
Definition test_string : Option :=
  OptionString "S" "string" "some string" false 0.
Definition test_count_string : Parser := newParser [test_verbose; test_string].

Definition test_required : Parser :=
  newParser [OptionString "S" "string" "some string" true 0].

Definition test_int : Option := OptionInt "I" "int" "some int" false 0.
Definition test_types : Parser :=
  newParser [test_int;
             OptionFloat "F" "float" "some float" false 0;
             OptionString "S" "string" "some string" false 0;
             OptionPath "f" "output-file" "some path" false 1;
             OptionFlag "D" "debug" "some flag" 0;
             OptionFlagCount "V" "verbose" "verbosity" 1].

Definition test_path : Parser :=
  newParser [OptionPathExisting "S" "string" "some string" false 0].

(** ** Usage text and accessors *)

(** [Parser::optionTypeDisplayName]; the [default] of its switch answers for
    values outside the enumeration, which [OptionType.t] does not have. *)
Definition optionTypeDisplayName (t : OptionType.t) : string :=
  match t with
  | OptionType.Flag | OptionType.FlagCount => "flag"
  | OptionType.Int => "integer"
  | OptionType.Float => "float"
  | OptionType.String => "string"
  | OptionType.Path | OptionType.PathExisting => "path"
  end.

(** The characters [\t] and [\n] of the formats. *)
Definition TAB : ascii := "009"%char.
Definition NEWLINE : ascii := "010"%char.

(** The body of the loop of [Parser::printOptionsUsage]: what its calls of
    [CLI_LOG_USAGE] write for one option. *)
Definition usageLine (opt : Option) : string :=
  (if requiresParameter opt then
     "  -" +:+ String (shortName opt) ", --" +:+ longName opt
     +:+ " <" +:+ optionTypeDisplayName (type opt) +:+ ">"
     +:+ String TAB (description opt)
   else
     "  -" +:+ String (shortName opt) ", --" +:+ longName opt
     +:+ String TAB (description opt))
  +:+ (if isRequired opt then " (required)" else "")
  +:+ String NEWLINE "".

Fixpoint usageLoop (opts : list Option) : string :=
  match opts with
  | [] => ""
  | opt :: rest => usageLine opt +:+ usageLoop rest
  end.

(** [Parser::printOptionsUsage]: the text written through [CLI_LOG_USAGE]. *)
Definition printOptionsUsage (p : Parser) : string :=
  "Options:" +:+ String NEWLINE (usageLoop (options p)).

(** [Parser::getRemainingArgs]. *)
Definition getRemainingArgs (p : Parser) : list string := remaining p.

(** ** The example program, src/cli/cli_example.cpp *)

(** The calls of [printf] of [main], each with its argument. *)
Inductive Printed : Set :=
  | PrintInputFile (inputFilename : option string)
  | PrintVerbosity (verbosity : Z).

(** What a run of [main] shows: its result, what it printed, the
    diagnostics of the parser and, when parsing failed, the usage text. *)
Record MainRun : Set := mkMainRun {
  mainResult : Z;
  mainPrinted : list Printed;
  mainErrors : list Diagnostic;
  mainUsage : option string
}.

(** [inputFilename] is the string variable at address 0 and [verbosity] the
    [int] at address 0; the program has no [float]. *)
Definition example_input : Option :=
  OptionString "i" "input-file" "input file" true 0.
Definition example_verbose : Option :=
  OptionFlagCount "v" "verbose" "verbose logging" 0.
Definition example_parser : Parser := newParser [example_input; example_verbose].

Definition example_world : World unit :=
  mkWorld (mkMemory (λ _, false) (λ _, 0) (λ _, tt) (λ _, None)) [].

(** [main(argc, argv)]. *)
Definition example_main (atoi : string → Z) (argv : list string) : MainRun :=
  let '(ok, parser, w) := parse atoi (λ _, tt) argv example_parser example_world in
  if negb ok then
    mkMainRun (-1) [] (stderr w)
      (Some (String NEWLINE "Usage: cli_example [-v] -i INPUT"
             +:+ String NEWLINE (String NEWLINE "")
             +:+ printOptionsUsage parser))
  else
    mkMainRun 0
      [PrintInputFile (strs (heap w) 0%nat); PrintVerbosity (ints (heap w) 0%nat)]
      (stderr w) None.

(** ** More vocabulary *)

(** What the loop of [isNumeric] accepts for a Float option: after an
    optional sign, digits and at most one decimal point. *)
Definition is_point (c : ascii) : bool :=
  match c with "." => true | _ => false end%char.

Definition float_literal_scanned (s : string) : Prop :=
  ∃ sign body, s = sign +:+ body
    ∧ (sign = "" ∨ sign = "+" ∨ sign = "-")
    ∧ all_chars (λ c, is_digit c || is_point c) body = true
    ∧ (count_char "." body ≤ 1)%nat.

(** An option as a call of the parser may leave it: as it was, or set. *)
Definition advanced (o o' : Option) : Prop := o' = o ∨ o' = set_isSet true o.

(** The option writes to the [bool], the [float], the string variable at
    address [a]. *)
Definition bool_bound_at (a : nat) (o : Option) : Prop :=
  type o = OptionType.Flag ∧ valuePointer o = a.
Definition float_bound_at (a : nat) (o : Option) : Prop :=
  type o = OptionType.Float ∧ valuePointer o = a.
Definition takes_string (o : Option) : Prop :=
  type o = OptionType.String ∨ type o = OptionType.Path
  ∨ type o = OptionType.PathExisting.
Definition str_bound_at (a : nat) (o : Option) : Prop :=
  takes_string o ∧ valuePointer o = a.

(** Between two memories, the variables no declared option is bound to
    are the same. *)
Definition writes_only_bound {float : Type} (opts : list Option)
    (m m' : Memory float) : Prop :=
  (∀ a, (∀ o, o ∈ opts → ¬ bool_bound_at a o) → bools m' a = bools m a)
  ∧ (∀ a, (∀ o, o ∈ opts → ¬ int_bound_at a o) → ints m' a = ints m a)
  ∧ (∀ a, (∀ o, o ∈ opts → ¬ float_bound_at a o) → floats m' a = floats m a)
  ∧ (∀ a, (∀ o, o ∈ opts → ¬ str_bound_at a o) → strs m' a = strs m a).

(** Between two memories, no [bool] went from true to false and no string
    from a token to null. *)
Definition never_reset {float : Type} (m m' : Memory float) : Prop :=
  (∀ a, bools m a = true → bools m' a = true)
  ∧ (∀ a, is_Some (strs m a) → is_Some (strs m' a)).

(** Every String, Path or PathExisting option that is set has a string in
    its variable. *)
Definition set_strings_bound {float : Type} (opts : list Option)
    (m : Memory float) : Prop :=
  ∀ o, o ∈ opts → takes_string o → isSet o = true →
    is_Some (strs m (valuePointer o)).

(** The option has no line break in what [printOptionsUsage] prints of it. *)
Definition single_line (o : Option) : Prop :=
  shortName o ≠ NEWLINE
  ∧ count_char NEWLINE (longName o) = 0%nat
  ∧ count_char NEWLINE (description o) = 0%nat.

(** Every Flag option that is set has true in its variable. *)
Definition set_flags_true {float : Type} (opts : list Option)
    (m : Memory float) : Prop :=
  ∀ o, o ∈ opts → type o = OptionType.Flag → isSet o = true →
    bools m (valuePointer o) = true.

(** Whether a run of a loop went on without an error result. *)
Definition went_on (ret : option Z) : bool :=
  match ret with
  | Some r => bool_decide (0 ≤ r)
  | None => true
  end.

(** The scan reaches an option token that takes a parameter when it is the
    last token of the command line. *)
Fixpoint dangling (opts : list Option) (skip : nat) (toks : list string) : bool :=
  match toks with
  | [] => false
  | tok :: rest =>
      match skip with
      | S skip' => dangling opts skip' rest
      | O =>
          if takes_parameter opts tok then
            match rest with
            | [] => true
            | _ :: _ => dangling opts 1 rest
            end
          else dangling opts 0 rest
      end
  end.

(** * Proofs *)

(** ** The numeric-literal check *)

Lemma isNumeric_from_digit i c rest fp be fd :
  is_digit c = true →
  isNumeric_from i (String c rest) fp be fd = isNumeric_from (S i) rest fp be fd.
Proof.
  destruct c as [[] [] [] [] [] [] [] []]; simpl; first [discriminate | reflexivity].
Qed.

Lemma isNumeric_from_exponent i c rest fp be fd :
  is_exponent_marker c = true →
  isNumeric_from i (String c rest) fp be fd = false.
Proof.
  destruct c as [[] [] [] [] [] [] [] []]; simpl;
    first [discriminate | by destruct fp].
Qed.

Lemma isNumeric_from_int_tail i s be fd :
  isNumeric_from (S i) s false be fd = all_chars is_digit s.
Proof.
  revert i. induction s as [|c s IH]; intros i; [done|].
  destruct (is_digit c) eqn:Hd.
  - rewrite isNumeric_from_digit by done. simpl. rewrite Hd. apply IH.
  - simpl all_chars. rewrite Hd. simpl andb.
    destruct c as [[] [] [] [] [] [] [] []]; simpl in *;
      first [discriminate | reflexivity].
Qed.

Lemma isNumeric_int_head c s :
  isNumeric (String c s) false = (is_digit c || is_sign c) && all_chars is_digit s.
Proof.
  unfold isNumeric.
  destruct c as [[] [] [] [] [] [] [] []]; simpl;
    rewrite ?isNumeric_from_int_tail; reflexivity.
Qed.

Lemma isNumeric_from_exponent_rejected s i fp be fd :
  some_char is_exponent_marker s = true → isNumeric_from i s fp be fd = false.
Proof.
  revert i fp be fd. induction s as [|c s IH]; intros i fp be fd; [done|].
  destruct (is_exponent_marker c) eqn:He.
  - intros _. by apply isNumeric_from_exponent.
  - simpl some_char. rewrite He. simpl orb. intros Hs.
    destruct c as [[] [] [] [] [] [] [] []]; simpl in *;
      repeat case_match; first [done | by apply IH].
Qed.

Lemma isNumeric_exponent_rejected s fp :
  some_char is_exponent_marker s = true → isNumeric s fp = false.
Proof. apply isNumeric_from_exponent_rejected. Qed.

(** A second decimal point is rejected. *)
Lemma isNumeric_from_decimal_points s i (fp be fd : bool) :
  (2 ≤ count_char "." s + (if fd then 1 else 0))%nat →
  isNumeric_from i s fp be fd = false.
Proof.
  revert i fp be fd. induction s as [|c s IH]; intros i fp be fd Hdots.
  { simpl in Hdots. destruct fd; lia. }
  destruct (decide (c = "."%char)) as [->|Hc].
  - simpl. destruct fp, fd; simpl; try done.
    apply IH. simpl in Hdots. lia.
  - assert (count_char "." (String c s) = count_char "." s) as Hcount.
    { simpl. by rewrite bool_decide_eq_false_2. }
    rewrite Hcount in Hdots. clear Hcount.
    destruct c as [[] [] [] [] [] [] [] []]; try done; simpl;
      repeat case_match; try done; by apply IH.
Qed.

Lemma isNumeric_second_decimal_point s fp :
  (2 ≤ count_char "." s)%nat → isNumeric s fp = false.
Proof. intros H. apply isNumeric_from_decimal_points. simpl. lia. Qed.

Lemma is_sign_cases c : is_sign c = true → c = "+"%char ∨ c = "-"%char.
Proof.
  destruct c as [[] [] [] [] [] [] [] []]; simpl; first [discriminate | auto].
Qed.

(** C1: a float literal with one exponent marker, such as [1e5] or
    [2.5E-3], is rejected by [isNumeric(str, true)], where the specified
    grammar accepts it: the [e]/[E] case of the switch records the marker
    and then returns false. *)
Theorem isNumeric_float_exponent_literals :
  isNumeric "1e5" true = false ∧ isNumeric "2.5E-3" true = false.
Proof. split; reflexivity. Qed.

Example isNumeric_literals :
  isNumeric "-5" false = true ∧ isNumeric "23" false = true
  ∧ isNumeric "0.5" true = true ∧ isNumeric "0.5" false = false
  ∧ isNumeric "3.14abc" true = false ∧ isNumeric "5e" true = false
  ∧ isNumeric "1.2.3" true = false ∧ isNumeric "1-2" true = false.
Proof. by repeat split. Qed.

(** C2, as stated, fails on the empty string: the loop body never runs and
    [isNumeric] answers true, where the integer grammar asks for a digit. *)
Lemma isNumeric_int_empty_string :
  isNumeric "" false = true ∧ ¬ int_literal_spec "".
Proof.
  split; [reflexivity|].
  intros (sign & body & Heq & _ & Hne & _).
  destruct sign; [|discriminate]. cbv [String.append] in Heq. by subst.
Qed.

Example isNumeric_int_bare_sign :
  isNumeric "+" false = true ∧ isNumeric "-" false = true.
Proof. split; reflexivity. Qed.

(** C2, amended: [isNumeric(str, false)] returns true exactly when [str] is
    zero or more ASCII digits optionally preceded by a single leading [+] or
    [-]; the empty string and a bare sign are accepted. *)
Theorem isNumeric_int_literal (s : string) :
  isNumeric s false = true ↔ int_literal_scanned s.
Proof.
  destruct s as [|c s].
  { split; [|done]. intros _. exists "", "". auto. }
  rewrite isNumeric_int_head, andb_true_iff, orb_true_iff. split.
  - intros [[Hd|Hs] Hall].
    + exists "", (String c s). simpl. rewrite Hd, Hall. auto.
    + exists (String c ""), s. apply is_sign_cases in Hs as [->| ->]; auto.
  - intros (sign & body & Heq & Hsign & Hall).
    destruct Hsign as [->|[->| ->]]; cbv [String.append] in Heq.
    + subst body. simpl in Hall. apply andb_true_iff in Hall as [-> ->]. auto.
    + injection Heq as -> ->. auto.
    + injection Heq as -> ->. auto.
Qed.

(** ** Applying one option *)

Section Apply.

Context {float : Type}.
Variable atoi : string → Z.
Variable atof : string → float.

Implicit Types (opt o : Option) (argv more : list string) (w : World float).

Lemma requiresParameter_type opt :
  requiresParameter opt =
    match type opt with
    | OptionType.Flag | OptionType.FlagCount => false
    | _ => true
    end.
Proof. unfold requiresParameter. by destruct (type opt). Qed.

Lemma applyOption_outcome opt argv w r opt' w' :
  applyOption atoi atof opt argv w = (r, opt', w') →
  ApplyOutcome atoi atof opt argv w r opt' w'.
Proof.
  unfold applyOption. rewrite requiresParameter_type.
  replace (Z.of_nat (length argv) <? 2) with (bool_decide (argv !! 1%nat = None)).
  2:{ destruct argv as [|a [|b l]]; simpl; try done.
      symmetry. apply Z.ltb_ge. lia. }
  destruct opt as [t c l d req s vp]; unfold set_isSet; simpl.
  destruct t, s, (argv !! 1%nat) as [a|] eqn:Ha; simpl;
    repeat case_match; intros [= <- <- <-];
    try discriminate;
    first [ by apply ApplyDuplicate
          | by apply ApplyMissing
          | by eapply ApplyInvalidInteger; eauto; destruct (isNumeric _ _)
          | by eapply ApplyInvalidFloat; eauto; destruct (isNumeric _ _)
          | by apply ApplyFlag
          | by apply (ApplyFlagCount atoi atof (mkOption OptionType.FlagCount c l d req _ vp))
          | by eapply ApplyInt; eauto; destruct (isNumeric _ _)
          | by eapply ApplyFloat; eauto; destruct (isNumeric _ _)
          | by eapply ApplyString; eauto ].
Qed.

Section Outcome.

Variables (opt : Option) (argv : list string) (w : World float).
Variables (r : Z) (opt' : Option) (w' : World float).
Hypothesis Happ : ApplyOutcome atoi atof opt argv w r opt' w'.

Lemma ApplyOutcome_option :
  isSet opt' = true ∧ (opt' = opt ∨ opt' = set_isSet true opt).
Proof using Happ. destruct Happ; auto. Qed.

Lemma ApplyOutcome_decl : decl opt = decl opt'.
Proof using Happ. by destruct Happ. Qed.

Lemma ApplyOutcome_result : r = -1 ∨ r = 0 ∨ r = 1.
Proof using Happ. destruct Happ; auto. Qed.

Lemma ApplyOutcome_error :
  r < 0 →
  ∃ d, w' = CLI_LOG_ERROR d w ∧ scan_diagnostic d
    ∧ ∀ c l, parameter_error d = Some (c, l) →
        shortName opt' = c ∧ longName opt' = l ∧ isSet opt = false.
Proof using Happ.
  destruct Happ; try lia; intros _; eexists; (split_and!; [done..|]);
    simpl; intros c l; by intros [= <- <-].
Qed.

Lemma ApplyOutcome_flag :
  r = 0 →
  requiresParameter opt = false ∧ stderr w' = stderr w
  ∧ opt' = set_isSet true opt
  ∧ (isSet opt = false ∨ type opt = OptionType.FlagCount).
Proof using Happ.
  destruct Happ; try done; intros _; rewrite requiresParameter_type;
    by repeat match goal with H : type _ = _ |- _ => rewrite H end; auto.
Qed.

Lemma ApplyOutcome_parameter :
  0 < r →
  r = 1 ∧ requiresParameter opt = true ∧ isSet opt = false
  ∧ opt' = set_isSet true opt ∧ stderr w' = stderr w
  ∧ ∃ s, argv !! 1%nat = Some s ∧ bound_parameter atoi atof opt s (heap w').
Proof using Happ.
  destruct Happ; try lia; intros _; rewrite requiresParameter_type;
    unfold bound_parameter;
    repeat match goal with
           | H : type _ = _ |- _ => rewrite H
           | H : _ ∨ _ |- _ => destruct H
           end;
    (repeat split; try done); eexists; (split; [done|]); simpl;
    by rewrite fn_lookup_insert.
Qed.

Lemma ApplyOutcome_ints a :
  ¬ int_bound_at a opt → ints (heap w') a = ints (heap w) a.
Proof using Happ.
  unfold int_bound_at. intros Hn. destruct Happ; try done; simpl;
    apply fn_lookup_insert_ne; naive_solver.
Qed.

Lemma ApplyOutcome_count :
  type opt = OptionType.FlagCount →
  r = 0 ∧ ints (heap w') (valuePointer opt)
          = to_int (ints (heap w) (valuePointer opt) + 1).
Proof using Happ.
  intros Ht. destruct Happ as [| Hreq | | | | | | | s Hty]; try congruence.
  - by rewrite requiresParameter_type, Ht in Hreq.
  - split; [done|]. simpl. by rewrite fn_lookup_insert.
  - destruct Hty as [|[|]]; congruence.
Qed.

End Outcome.

End Apply.

(** ** Declarations stay as they are *)

Lemma decl_fields o o' :
  decl o = decl o' →
  type o = type o' ∧ shortName o = shortName o' ∧ longName o = longName o'
  ∧ valuePointer o = valuePointer o' ∧ isRequired o = isRequired o'.
Proof. destruct o, o'. unfold decl, set_isSet. simpl. by intros [= -> -> -> -> -> ->]. Qed.

Lemma decl_requiresParameter o o' :
  decl o = decl o' → requiresParameter o = requiresParameter o'.
Proof. intros (Ht & _)%decl_fields. unfold requiresParameter. by rewrite Ht. Qed.

Lemma same_decls_refl opts : same_decls opts opts.
Proof. by apply Forall_Forall2_diag, Forall_forall. Qed.

Lemma same_decls_trans opts1 opts2 opts3 :
  same_decls opts1 opts2 → same_decls opts2 opts3 → same_decls opts1 opts3.
Proof. apply Forall2_trans. congruence. Qed.

Lemma same_decls_lookup opts opts' j o' :
  same_decls opts opts' → opts' !! j = Some o' →
  ∃ o, opts !! j = Some o ∧ decl o = decl o'.
Proof. intros H Hj. by apply (Forall2_lookup_r _ _ _ _ _ H Hj). Qed.

Lemma existsb_same_decls (f : Option → bool) opts opts' :
  (∀ o o', decl o = decl o' → f o = f o') →
  same_decls opts opts' → existsb f opts = existsb f opts'.
Proof.
  intros Hf. induction 1 as [|o o' ?? Ho ? IH]; [done|].
  simpl. by rewrite IH, (Hf o o').
Qed.

Lemma cluster_takes_parameter_same_decls opts opts' chars :
  same_decls opts opts' →
  cluster_takes_parameter opts chars = cluster_takes_parameter opts' chars.
Proof.
  intros Hsame. induction chars as [|c [|c' chars'] IH]; [done| |done].
  simpl. apply existsb_same_decls; [|done].
  intros o o' Ho. rewrite (decl_requiresParameter _ _ Ho).
  by destruct (decl_fields _ _ Ho) as (_ & -> & _).
Qed.

Lemma find_long_same_decls name opts opts' :
  same_decls opts opts' →
  match find (λ o, bool_decide (name = longName o)) opts,
        find (λ o, bool_decide (name = longName o)) opts' with
  | Some o, Some o' => decl o = decl o'
  | None, None => True
  | _, _ => False
  end.
Proof.
  induction 1 as [|o o' ?? Ho ? IH]; [done|]. simpl.
  destruct (decl_fields _ _ Ho) as (_ & _ & <- & _).
  by case_bool_decide.
Qed.

Lemma takes_parameter_same_decls opts opts' tok :
  same_decls opts opts' → takes_parameter opts tok = takes_parameter opts' tok.
Proof.
  intros Hsame. destruct tok as [|c0 [|c1 name]]; try done.
  destruct c0 as [[] [] [] [] [] [] [] []]; try done. simpl.
  destruct (Ascii.eqb c1 "-").
  - pose proof (find_long_same_decls name _ _ Hsame) as Hf.
    repeat case_match; try done. by apply decl_requiresParameter.
  - by apply (cluster_takes_parameter_same_decls _ _ (String c1 name)).
Qed.

Lemma classified_same_decls opts opts' toks skip :
  same_decls opts opts' → classified opts skip toks = classified opts' skip toks.
Proof.
  intros Hsame. revert skip. induction toks as [|tok toks IH]; intros [|skip]; simpl;
    try done.
  by rewrite (takes_parameter_same_decls _ _ _ Hsame), IH.
Qed.

Lemma uses_decl o o' tok : decl o = decl o' → uses o tok = uses o' tok.
Proof.
  intros (_ & Hs & Hl & _)%decl_fields. unfold uses. by rewrite Hs, Hl.
Qed.

Lemma token_is_option c1 name :
  is_positional (String "-" (String c1 name)) = false.
Proof. done. Qed.

(** ** The loops over the declared options *)

Section Loops.

Context {float : Type}.
Variable atoi : string → Z.
Variable atof : string → float.

Implicit Types (opt o : Option) (opts : list Option) (argv more : list string).
Implicit Types (w : World float) (p : Parser) (d : Diagnostic).

Lemma shortOptionLoop_run c lastChar argv opts handled w opts' handled' w' ret :
  shortOptionLoop atoi atof c lastChar argv opts handled w = (opts', handled', w', ret) →
  ShortRun atoi atof c lastChar argv opts handled w opts' handled' w' ret.
Proof.
  revert handled w opts' handled' w' ret.
  induction opts as [|opt rest IH]; intros handled w opts' handled' w' ret; simpl.
  { intros [= <- <- <- <-]. constructor. }
  case_bool_decide as Hc.
  - destruct (requiresParameter opt && negb lastChar) eqn:Hmid.
    + intros [= <- <- <- <-]. apply andb_true_iff in Hmid as [? Hl].
      apply ShortRunMiddle; [done..|]. by destruct lastChar.
    + destruct (applyOption atoi atof opt argv w) as [[result opt1] w1] eqn:Happ.
      apply applyOption_outcome in Happ.
      destruct (result =? 0) eqn:Hr; simpl.
      * apply Z.eqb_eq in Hr as ->.
        destruct (shortOptionLoop atoi atof c lastChar argv rest true w1)
          as [[[rest1 h1] w2] ret1] eqn:Hrest.
        intros [= <- <- <- <-]. eapply ShortRunApply; eauto.
      * intros [= <- <- <- <-]. apply Z.eqb_neq in Hr.
        eapply ShortRunReturn; eauto.
  - destruct (shortOptionLoop atoi atof c lastChar argv rest handled w)
      as [[[rest1 h1] w1] ret1] eqn:Hrest.
    intros [= <- <- <- <-]. apply ShortRunSkip; eauto.
Qed.

Lemma scan_report_cons d o opts : scan_report d opts → scan_report d (o :: opts).
Proof.
  intros [Hscan Hrep]. split; [done|]. intros c l Hd.
  destruct (Hrep c l Hd) as (o' & ? & ?). exists o'. by rewrite elem_of_cons; auto.
Qed.

Section ShortRun.

Variables (c : ascii) (lastChar : bool) (argv : list string).

Lemma ShortRun_options opts handled w opts' handled' w' ret :
  ShortRun atoi atof c lastChar argv opts handled w opts' handled' w' ret →
  Forall2 (λ o o', o' = o ∨ (shortName o = c ∧ o' = set_isSet true o)) opts opts'.
Proof.
  assert (Hrefl : ∀ l : list Option,
    Forall2 (λ o o', o' = o ∨ (shortName o = c ∧ o' = set_isSet true o)) l l).
  { intros l. apply Forall_Forall2_diag, Forall_forall. auto. }
  induction 1 as [| | |????? opt' ??? Happ ?|???? opt' ????? ? ? Happ ? ?].
  - constructor.
  - constructor; auto.
  - apply Hrefl.
  - constructor; [|apply Hrefl].
    destruct (ApplyOutcome_option _ _ _ _ _ _ _ _ Happ) as [_ [->| ->]]; auto.
  - constructor; [|done].
    destruct (ApplyOutcome_option _ _ _ _ _ _ _ _ Happ) as [_ [->| ->]]; auto.
Qed.

Lemma ShortRun_completed opts handled w opts' handled' w' ret :
  ShortRun atoi atof c lastChar argv opts handled w opts' handled' w' ret →
  ret = None →
  stderr w' = stderr w
  ∧ (∀ o, o ∈ opts → shortName o = c → requiresParameter o = false)
  ∧ handled' = handled || existsb (λ o, bool_decide (shortName o = c)) opts.
Proof.
  induction 1 as [|opt ??????? Hne ? IH| | |opt ????????? Hc ? Happ ? IH];
    intros Hret; try done.
  - split_and!; [done|by intros ? ?%elem_of_nil|by rewrite orb_false_r].
  - destruct (IH Hret) as (-> & Hreq & ->). split_and!; [done| |].
    + intros o [->|?]%elem_of_cons; [done|by apply Hreq].
    + simpl. by rewrite bool_decide_eq_false_2.
  - destruct (IH Hret) as (-> & Hreq & ->).
    destruct (ApplyOutcome_flag _ _ _ _ _ _ _ _ Happ eq_refl) as (? & -> & _).
    split_and!; [done| |].
    + intros o [->|?]%elem_of_cons; [done|by apply Hreq].
    + simpl. rewrite bool_decide_eq_true_2 by done. simpl. by rewrite orb_true_r.
Qed.

Lemma ShortRun_returned opts handled w opts' handled' w' ret r :
  ShortRun atoi atof c lastChar argv opts handled w opts' handled' w' ret →
  ret = Some r →
  (r = -1 ∧ ∃ d, stderr w' = (stderr w ++ [d])%list ∧ scan_report d opts')
  ∨ (r = 1 ∧ stderr w' = stderr w ∧ lastChar = true
     ∧ existsb (λ o, bool_decide (shortName o = c) && requiresParameter o) opts = true
     ∧ ∃ s, argv !! 1%nat = Some s).
Proof.
  induction 1 as [|opt ??????? Hne ? IH|
                  |opt ???? opt' ? Hc Hmid Happ Hnz
                  |opt ??? opt' ????? Hc ? Happ ? IH];
    intros Hret; try done.
  - destruct (IH Hret) as [(-> & d & -> & Hrep)|(-> & -> & -> & Hex & Hs)]; [left|right].
    + split; [done|]. exists d. split; [done|]. by apply scan_report_cons.
    + split_and!; try done. simpl. by rewrite Hex, orb_true_r.
  - injection Hret as <-. left. split; [done|]. eexists. split; [done|].
    by split; [|intros c' l].
  - injection Hret as <-.
    destruct (ApplyOutcome_result _ _ _ _ _ _ _ _ Happ) as [->|[->| ->]]; [left| done |right].
    + split; [done|].
      destruct (ApplyOutcome_error _ _ _ _ _ _ _ _ Happ) as (d & -> & Hscan & Hd); [lia|].
      exists d. split; [done|]. split; [done|]. intros c' l Hcl.
      destruct (Hd c' l Hcl) as (? & ? & _). exists opt'.
      rewrite elem_of_cons.
      destruct (ApplyOutcome_option _ _ _ _ _ _ _ _ Happ) as [? _]. auto.
    + destruct (ApplyOutcome_parameter _ _ _ _ _ _ _ _ Happ) as
        (_ & Hreq & _ & _ & -> & s & Hs & _); [lia|].
      rewrite Hreq in Hmid. split_and!; try done.
      * by destruct lastChar.
      * simpl. by rewrite bool_decide_eq_true_2, Hreq.
      * by exists s.
  - destruct (ApplyOutcome_flag _ _ _ _ _ _ _ _ Happ eq_refl) as (? & Herr & _).
    destruct (IH Hret) as [(-> & d & -> & Hrep)|(-> & -> & -> & Hex & Hs)]; [left|right].
    + split; [done|]. exists d. split; [by rewrite Herr|]. by apply scan_report_cons.
    + split_and!; try done. simpl. by rewrite Hex, orb_true_r.
Qed.

Lemma ShortRun_ints a opts handled w opts' handled' w' ret :
  ShortRun atoi atof c lastChar argv opts handled w opts' handled' w' ret →
  (∀ o, o ∈ opts → shortName o = c → ¬ int_bound_at a o) →
  ints (heap w') a = ints (heap w) a.
Proof.
  induction 1 as [|opt ??????? Hne ? IH| |opt ???? opt' ? Hc Hmid Happ Hnz
                  |opt ??? opt' ????? Hc ? Happ ? IH]; intros Hfree; try done.
  - apply IH. intros o ?. apply Hfree. by apply elem_of_cons; auto.
  - eapply ApplyOutcome_ints; [done|]. apply Hfree; [|done]. by apply elem_of_cons; auto.
  - rewrite IH.
    + eapply ApplyOutcome_ints; [done|]. apply Hfree; [|done]. by apply elem_of_cons; auto.
    + intros o ?. apply Hfree. by apply elem_of_cons; auto.
Qed.

End ShortRun.

Lemma ShortRun_same_decls c lastChar argv opts handled w opts' handled' w' ret :
  ShortRun atoi atof c lastChar argv opts handled w opts' handled' w' ret →
  same_decls opts opts'.
Proof.
  intros Hrun%ShortRun_options. unfold same_decls.
  revert Hrun. apply Forall2_impl.
  by intros o o' [->|[_ ->]].
Qed.

Lemma clusterLoop_general chars argv opts w r opts' w' :
  clusterLoop atoi atof chars argv opts w = (r, opts', w') →
  same_decls opts opts'
  ∧ step_result argv (cluster_takes_parameter opts chars) w r opts' w'.
Proof.
  revert opts w. induction chars as [|c chars' IH]; intros opts w Hloop; simpl in Hloop.
  { injection Hloop as <- <- <-. split; [apply same_decls_refl|]. by right. }
  destruct (shortOptionLoop atoi atof c (bool_decide (chars' = "")) argv opts false w)
    as [[[opts1 handled1] w1] ret] eqn:Hshort.
  apply shortOptionLoop_run in Hshort.
  pose proof (ShortRun_same_decls _ _ _ _ _ _ _ _ _ _ Hshort) as Hsame.
  destruct ret as [r0|].
  - injection Hloop as <- <- <-. split; [done|].
    destruct (ShortRun_returned _ _ _ _ _ _ _ _ _ _ r0 Hshort eq_refl)
      as [Herr|(-> & Hlog & Hlast & Hex & Hs)]; [by left|right].
    apply bool_decide_eq_true in Hlast as ->. simpl. by rewrite Hex.
  - destruct (ShortRun_completed _ _ _ _ _ _ _ _ _ _ Hshort eq_refl)
      as (Hlog & Hreq & ->).
    simpl in Hloop. destruct (existsb _ opts) eqn:Hhandled; simpl in Hloop.
    + destruct (IH _ _ Hloop) as [Hsame' Hres].
      split; [by eapply same_decls_trans|].
      assert (cluster_takes_parameter opts (String c chars')
              = cluster_takes_parameter opts1 chars') as ->.
      { destruct chars' as [|c' chars''].
        2:{ change (cluster_takes_parameter opts (String c' chars'')
                    = cluster_takes_parameter opts1 (String c' chars'')).
            by apply cluster_takes_parameter_same_decls. }
        simpl. apply not_true_iff_false. intros (o & Ho & Hm)%existsb_exists.
        apply andb_true_iff in Hm as [Hc%bool_decide_eq_true Hp].
        apply list_elem_of_In in Ho. by rewrite (Hreq o Ho Hc) in Hp. }
      unfold step_result in *. by rewrite <- Hlog.
    + injection Hloop as <- <- <-. split; [done|]. left. split; [done|].
      exists (ErrUnknownShort c). simpl. rewrite Hlog. split; [done|].
      by split; [|intros ??].
Qed.

Lemma longOptionLoop_unmatched name argv opts w :
  longOptionLoop atoi atof name argv opts w = None →
  find (λ o, bool_decide (name = longName o)) opts = None.
Proof.
  induction opts as [|opt rest IH]; simpl; [done|].
  case_bool_decide; [by destruct (applyOption _ _ _ _ _) as [[??]?]|].
  destruct (longOptionLoop _ _ _ _ _ _) as [[[??]?]|]; [done|auto].
Qed.

Lemma longOptionLoop_matched name argv opts w r opts' w' :
  longOptionLoop atoi atof name argv opts w = Some (r, opts', w') →
  ∃ k o o',
    opts !! k = Some o ∧ name = longName o
    ∧ find (λ o, bool_decide (name = longName o)) opts = Some o
    ∧ (∀ j oj, opts !! j = Some oj → (j < k)%nat → longName oj ≠ name)
    ∧ opts' = <[k := o']> opts
    ∧ ApplyOutcome atoi atof o argv w r o' w'.
Proof.
  revert opts'. induction opts as [|opt rest IH]; intros opts'; simpl; [done|].
  case_bool_decide as Hname.
  - destruct (applyOption atoi atof opt argv w) as [[r0 opt1] w1] eqn:Happ.
    intros [= <- <- <-]. exists 0%nat, opt, opt1.
    split_and!; try done; [lia|by apply applyOption_outcome].
  - destruct (longOptionLoop atoi atof name argv rest w) as [[[r0 rest1] w1]|]; [|done].
    intros [= <- <- <-].
    destruct (IH _ eq_refl) as (k & o & o' & Hk & Hn & Hfind & Hfirst & -> & Happ).
    exists (S k), o, o'. split_and!; try done.
    intros [|j] oj Hj Hlt; simpl in Hj.
    + by injection Hj as <-.
    + apply (Hfirst j); [done|lia].
Qed.

Lemma token_shape arg :
  (∃ c1 name, arg = String "-" (String c1 name))
  ∨ (is_positional arg = true
     ∧ (∀ opts, takes_parameter opts arg = false)
     ∧ (∀ o, uses o arg = 0%nat)
     ∧ ∀ more p w,
         handleOption atoi atof arg more p w
         = (0, mkParser (options p) (remaining p ++ [arg]) (executableName p), w)).
Proof.
  destruct arg as [|c0 [|c1 name]].
  - by right.
  - right. by destruct c0 as [[] [] [] [] [] [] [] []].
  - destruct c0 as [[] [] [] [] [] [] [] []]; first [by right | left; eauto].
Qed.

Lemma same_decls_insert opts k o o' :
  opts !! k = Some o → decl o = decl o' → same_decls opts (<[k := o']> opts).
Proof.
  intros Hk Ho. rewrite <- (list_insert_id opts k o) at 1 by done.
  apply Forall2_insert; [apply same_decls_refl|done].
Qed.

Lemma handleOption_option_token c1 name more p w :
  handleOption atoi atof (String "-" (String c1 name)) more p w =
    let arg := String "-" (String c1 name) in
    if negb (Ascii.eqb c1 "-") then
      let '(result, opts', w') :=
        clusterLoop atoi atof (String c1 name) (arg :: more) (options p) w in
      (result, set_options opts' p, w')
    else
      match longOptionLoop atoi atof name (arg :: more) (options p) w with
      | Some (result, opts', w') => (result, set_options opts' p, w')
      | None => (-1, p, CLI_LOG_ERROR (ErrUnknownLong arg) w)
      end.
Proof. reflexivity. Qed.

Lemma handleOption_general arg more p w r p' w' :
  handleOption atoi atof arg more p w = (r, p', w') →
  same_decls (options p) (options p')
  ∧ executableName p' = executableName p
  ∧ remaining p' = (remaining p ++ if is_positional arg then [arg] else [])%list
  ∧ (r < 0 → is_positional arg = false)
  ∧ step_result (arg :: more) (takes_parameter (options p) arg) w r (options p') w'.
Proof.
  destruct (token_shape arg) as [(c1 & name & ->)|(Hpos & Htakes & _ & Hpush)].
  2:{ rewrite Hpush, Hpos, Htakes. intros [= <- <- <-]. simpl.
      split_and!; [apply same_decls_refl|done|done|lia|by right]. }
  rewrite token_is_option, app_nil_r, handleOption_option_token.
  cbv zeta. unfold takes_parameter.
  destruct (Ascii.eqb c1 "-"); cbn [negb].
  - destruct (longOptionLoop atoi atof name _ (options p) w) as [[[r0 opts1] w1]|] eqn:Hlong.
    + intros [= <- <- <-]. simpl.
      destruct (longOptionLoop_matched _ _ _ _ _ _ _ Hlong)
        as (k & o & o' & Hk & Hn & -> & _ & -> & Happ).
      pose proof (ApplyOutcome_decl _ _ _ _ _ _ _ _ Happ) as Hdecl.
      split_and!; try done; [by eapply same_decls_insert|].
      destruct (ApplyOutcome_option _ _ _ _ _ _ _ _ Happ) as [Hset _].
      destruct (ApplyOutcome_result _ _ _ _ _ _ _ _ Happ) as [->|[->| ->]].
      * left. split; [done|].
        destruct (ApplyOutcome_error _ _ _ _ _ _ _ _ Happ) as (d & -> & Hscan & Hd); [lia|].
        exists d. split; [done|]. split; [done|]. intros c l Hcl.
        destruct (Hd c l Hcl) as (? & ? & _). exists o'. split_and!; try done.
        apply list_elem_of_insert. by eapply lookup_lt_Some.
      * destruct (ApplyOutcome_flag _ _ _ _ _ _ _ _ Happ eq_refl) as (-> & Hlog & _).
        by right.
      * destruct (ApplyOutcome_parameter _ _ _ _ _ _ _ _ Happ)
          as (_ & -> & _ & _ & Hlog & s & Hs & _); [lia|].
        right. split_and!; try done. by exists s.
    + intros [= <- <- <-]. rewrite (longOptionLoop_unmatched _ _ _ _ Hlong).
      split_and!; try done; [apply same_decls_refl|].
      left. split; [done|]. eexists. split; [done|]. by split; [|intros ??].
  - destruct (clusterLoop atoi atof (String c1 name)
                (String "-" (String c1 name) :: more) (options p) w)
      as [[r0 opts1] w1] eqn:Hcluster.
    intros [= <- <- <-]. simpl.
    by destruct (clusterLoop_general _ _ _ _ _ _ _ Hcluster).
Qed.

Lemma positional_tokens_cons opts tok toks :
  positional_tokens opts 0 (tok :: toks)
  = ((if is_positional tok then [tok] else [])
     ++ positional_tokens opts (if takes_parameter opts tok then 1 else 0) toks)%list.
Proof. unfold positional_tokens. simpl. by destruct (is_positional tok). Qed.

Lemma parseLoop_general toks skip p w b p' w' :
  parseLoop atoi atof skip toks p w = (b, p', w') →
  same_decls (options p) (options p')
  ∧ executableName p' = executableName p
  ∧ ∃ l, remaining p' = (remaining p ++ l)%list
      ∧ l `prefix_of` positional_tokens (options p) skip toks
      ∧ if b then stderr w' = stderr w ∧ l = positional_tokens (options p) skip toks
        else ∃ d, stderr w' = (stderr w ++ [d])%list
               ∧ scan_report d (options p').
Proof.
  revert skip p w. induction toks as [|tok toks IH]; intros skip p w Hloop.
  { destruct skip; injection Hloop as <- <- <-;
      (split_and!; [apply same_decls_refl|done|]); exists [];
      by rewrite app_nil_r. }
  destruct skip as [|skip]; [|by apply IH].
  simpl in Hloop.
  destruct (handleOption atoi atof tok toks p w) as [[r p1] w1] eqn:Hstep.
  destruct (handleOption_general _ _ _ _ _ _ _ Hstep)
    as (Hsame & Hexe & Hrem & Hneg & Hres).
  destruct (r <? 0) eqn:Hr.
  - injection Hloop as <- <- <-. apply Z.ltb_lt in Hr.
    split_and!; [done..|]. exists []. rewrite Hrem, (Hneg Hr).
    split_and!; [done|apply prefix_nil|].
    destruct Hres as [(_ & Hd)|(_ & -> & _)]; [done|]. by destruct (takes_parameter _ _).
  - apply Z.ltb_ge in Hr. destruct Hres as [(-> & _)|(Hlog & -> & _)]; [lia|].
    replace (Z.to_nat (if takes_parameter (options p) tok then 1 else 0))
      with (if takes_parameter (options p) tok then 1%nat else 0%nat) in Hloop
      by by destruct (takes_parameter _ _).
    destruct (IH _ _ _ Hloop) as (Hsame' & Hexe' & l & Hrem' & Hpre & Hb).
    assert (Hpos : ∀ k, positional_tokens (options p1) k toks
                        = positional_tokens (options p) k toks).
    { intros k. unfold positional_tokens.
      by rewrite (classified_same_decls _ _ _ _ Hsame). }
    rewrite Hpos in Hpre, Hb.
    split_and!; [by eapply same_decls_trans|congruence|].
    exists ((if is_positional tok then [tok] else []) ++ l)%list.
    rewrite positional_tokens_cons, Hrem', Hrem, <- app_assoc.
    split_and!; [done|by apply prefix_app|].
    destruct b.
    + destruct Hb as [-> ->]. by rewrite Hlog.
    + destruct Hb as (d & -> & Hd). exists d. by rewrite Hlog.
Qed.

End Loops.

(** ** One option under names of its own *)

Section Unique.

Context {float : Type}.
Variable atoi : string → Z.
Variable atof : string → float.

Implicit Types (opt o : Option) (opts : list Option) (argv more toks : list string).
Implicit Types (w : World float) (p : Parser) (k : nat).

Lemma names_unique_at_same_decls k o o1 opts opts1 :
  names_unique_at k o opts → same_decls opts opts1 → opts1 !! k = Some o1 →
  decl o = decl o1 ∧ names_unique_at k o1 opts1.
Proof.
  intros [Hk Huniq] Hsame Hk1.
  destruct (same_decls_lookup _ _ _ _ Hsame Hk1) as (o0 & Hk0 & Hd).
  rewrite Hk in Hk0. injection Hk0 as <-. split; [done|]. split; [done|].
  intros j oj Hj Hne.
  destruct (same_decls_lookup _ _ _ _ Hsame Hj) as (oj0 & Hj0 & Hdj).
  destruct (Huniq j oj0 Hj0 Hne) as [Hs Hl].
  destruct (decl_fields _ _ Hd) as (_ & <- & <- & _).
  by destruct (decl_fields _ _ Hdj) as (_ & <- & <- & _).
Qed.

Lemma int_target_exclusive_at_same_decls k o o1 opts opts1 :
  int_target_exclusive_at k o opts → same_decls opts opts1 → decl o = decl o1 →
  int_target_exclusive_at k o1 opts1.
Proof.
  intros Hex Hsame Hd j oj Hj Hne Hty.
  destruct (same_decls_lookup _ _ _ _ Hsame Hj) as (oj0 & Hj0 & Hdj).
  destruct (decl_fields _ _ Hd) as (_ & _ & _ & <- & _).
  destruct (decl_fields _ _ Hdj) as (Ht & _ & _ & <- & _).
  apply (Hex j oj0 Hj0 Hne). by rewrite Ht.
Qed.

Lemma option_effect_refl k o opts w :
  opts !! k = Some o → option_effect k o 0 opts w opts w.
Proof. by intros Hk; split_and!. Qed.

Lemma option_effect_trans k o n1 n2 opts w opts1 w1 opts2 w2 :
  same_decls opts opts1 →
  option_effect k o n1 opts w opts1 w1 →
  option_effect k (match n1 with O => o | S _ => set_isSet true o end) n2
    opts1 w1 opts2 w2 →
  option_effect k o (n1 + n2) opts w opts2 w2.
Proof.
  intros Hsame (Hk1 & Hone1 & Hint1) (Hk2 & Hone2 & Hint2).
  destruct n1 as [|m]; simpl in Hk2, Hone2, Hint2.
  - simpl in *. split_and!; [done..|]. intros Ht Hex. rewrite Hint2, Hint1; try done.
    by eapply int_target_exclusive_at_same_decls.
  - split_and!.
    + by destruct n2.
    + intros Ht _. destruct (Hone1 Ht) as [Hm Hset]; [done|].
      destruct n2 as [|n2]; [by rewrite Nat.add_0_r|].
      by destruct (Hone2 Ht).
    + intros Ht Hex.
      rewrite Hint2, Hint1; try done; [|by eapply int_target_exclusive_at_same_decls].
      by rewrite (Nat.add_comm (S m)), Nat.iter_add.
Qed.

Lemma shortOptionLoop_unmatched c lastChar argv opts handled w :
  (∀ o, o ∈ opts → shortName o ≠ c) →
  shortOptionLoop atoi atof c lastChar argv opts handled w = (opts, handled, w, None).
Proof.
  induction opts as [|x rest IH]; intros Hne; simpl; [done|].
  rewrite bool_decide_eq_false_2 by (apply Hne; by left).
  rewrite IH; [done|]. intros o Ho. apply Hne. by right.
Qed.

Lemma shortOptionLoop_unique k o lastChar argv opts handled w :
  names_unique_at k o opts →
  shortOptionLoop atoi atof (shortName o) lastChar argv opts handled w =
    if requiresParameter o && negb lastChar then
      (opts, handled, CLI_LOG_ERROR (ErrMiddleOfFlagList (shortName o)) w, Some (-1))
    else
      let '(r, o', w') := applyOption atoi atof o argv w in
      (<[k := o']> opts, true, w', if r =? 0 then None else Some r).
Proof.
  intros [Hk Huniq]. revert k handled Hk Huniq.
  induction opts as [|x rest IH]; intros k handled Hk Huniq; [done|].
  destruct k as [|k]; simpl in Hk.
  - injection Hk as ->. simpl. rewrite bool_decide_eq_true_2 by done.
    destruct (requiresParameter o && negb lastChar); [done|].
    destruct (applyOption atoi atof o argv w) as [[r o'] w'].
    destruct (r =? 0); simpl; [|done].
    rewrite shortOptionLoop_unmatched; [done|].
    intros oj [j Hj]%list_elem_of_lookup_1. by apply (Huniq (S j) oj).
  - simpl. rewrite bool_decide_eq_false_2 by by apply (Huniq 0%nat x).
    rewrite (IH k handled Hk); [|intros j oj Hj Hne; apply (Huniq (S j) oj); [done|lia]].
    destruct (requiresParameter o && negb lastChar); [done|].
    by destruct (applyOption atoi atof o argv w) as [[r o'] w'].
Qed.

Lemma shortOptionLoop_other k o c lastChar argv opts handled w opts1 handled1 w1 ret :
  names_unique_at k o opts → shortName o ≠ c →
  shortOptionLoop atoi atof c lastChar argv opts handled w = (opts1, handled1, w1, ret) →
  option_effect k o 0 opts w opts1 w1.
Proof.
  intros [Hk Huniq] Hne Hrun%shortOptionLoop_run.
  split_and!; [|done|].
  - destruct (Forall2_lookup_l _ _ _ _ _
                (ShortRun_options _ _ _ _ _ _ _ _ _ _ _ _ Hrun) Hk)
      as (o1 & Hk1 & [->|[? _]]); done.
  - intros _ Hex. simpl.
    apply (ShortRun_ints _ _ _ _ _ _ _ _ _ _ _ _ _ Hrun).
    intros oj [j Hj]%list_elem_of_lookup_1 Hc [Hty Hvp].
    destruct (decide (j = k)) as [->|Hjk]; [congruence|].
    by apply (Hex j oj Hj Hjk Hty).
Qed.

Lemma applyOption_effect k o opts argv w r o' w' :
  names_unique_at k o opts →
  ApplyOutcome atoi atof o argv w r o' w' → 0 ≤ r →
  option_effect k o 1 opts w (<[k := o']> opts) w'.
Proof.
  intros [Hk _] Happ Hr.
  assert (o' = set_isSet true o
          ∧ (isSet o = false ∨ type o = OptionType.FlagCount)) as [-> Hset].
  { destruct (ApplyOutcome_result _ _ _ _ _ _ _ _ Happ) as [->|[->| ->]]; [lia| |].
    - by destruct (ApplyOutcome_flag _ _ _ _ _ _ _ _ Happ eq_refl) as (_ & _ & ? & ?).
    - destruct (ApplyOutcome_parameter _ _ _ _ _ _ _ _ Happ) as (_ & _ & ? & ? & _);
        [lia|auto]. }
  split_and!.
  - apply list_lookup_insert_eq. by eapply lookup_lt_Some.
  - intros Ht _. by destruct Hset.
  - intros Ht _. by destruct (ApplyOutcome_count _ _ _ _ _ _ _ _ Happ Ht) as [_ ->].
Qed.

Lemma applyOption_other_effect k o k0 o0 opts argv w r o0' w' :
  names_unique_at k o opts → opts !! k0 = Some o0 → k0 ≠ k →
  ApplyOutcome atoi atof o0 argv w r o0' w' →
  option_effect k o 0 opts w (<[k0 := o0']> opts) w'.
Proof.
  intros [Hk _] Hk0 Hne Happ. split_and!; [|done|].
  - by rewrite list_lookup_insert_ne.
  - intros _ Hex. simpl. apply (ApplyOutcome_ints _ _ _ _ _ _ _ _ Happ).
    intros [Hty Hvp]. by apply (Hex k0 o0 Hk0 Hne Hty).
Qed.

Lemma shortOptionLoop_effect k o c lastChar argv opts handled w opts1 handled1 w1 ret :
  names_unique_at k o opts →
  shortOptionLoop atoi atof c lastChar argv opts handled w = (opts1, handled1, w1, ret) →
  (∀ r, ret = Some r → 0 ≤ r) →
  option_effect k o (if bool_decide (c = shortName o) then 1 else 0) opts w opts1 w1.
Proof.
  intros Hu Hloop Hret. case_bool_decide as Hc.
  - subst c. rewrite (shortOptionLoop_unique k o) in Hloop by done.
    destruct (requiresParameter o && negb lastChar).
    + injection Hloop as <- <- <- <-. specialize (Hret (-1) eq_refl). lia.
    + destruct (applyOption atoi atof o argv w) as [[r o'] w'] eqn:Happ.
      apply applyOption_outcome in Happ. injection Hloop as <- <- <- <-.
      eapply applyOption_effect; [done..|].
      destruct (r =? 0) eqn:Hr; [apply Z.eqb_eq in Hr; lia|by apply Hret].
  - eapply shortOptionLoop_other; [done| |done]. congruence.
Qed.

Lemma clusterLoop_effect k chars argv o opts w r opts' w' :
  names_unique_at k o opts →
  clusterLoop atoi atof chars argv opts w = (r, opts', w') → 0 ≤ r →
  option_effect k o (count_char (shortName o) chars) opts w opts' w'.
Proof.
  revert o opts w. induction chars as [|c chars' IH]; intros o opts w Hu Hloop Hr;
    simpl in Hloop.
  { injection Hloop as <- <- <-. apply option_effect_refl, Hu. }
  destruct (shortOptionLoop atoi atof c (bool_decide (chars' = "")) argv opts false w)
    as [[[opts1 handled1] w1] ret] eqn:Hshort.
  pose proof (ShortRun_same_decls _ _ _ _ _ _ _ _ _ _ _ _
                (shortOptionLoop_run _ _ _ _ _ _ _ _ _ _ _ _ Hshort)) as Hsame.
  assert (option_effect k o (if bool_decide (c = shortName o) then 1 else 0)
            opts w opts1 w1) as Hstep.
  { eapply shortOptionLoop_effect; [done..|]. intros r0 ->. by injection Hloop as <- _ _. }
  destruct ret as [r0|].
  - injection Hloop as <- <- <-.
    destruct (ShortRun_returned _ _ _ _ _ _ _ _ _ _ _ _ r0
                (shortOptionLoop_run _ _ _ _ _ _ _ _ _ _ _ _ Hshort) eq_refl)
      as [[-> _]|(_ & _ & ->%bool_decide_eq_true & _)]; [lia|].
    simpl. by rewrite Nat.add_0_r.
  - destruct handled1; simpl in Hloop; [|injection Hloop as <- _ _; lia].
    pose proof Hstep as (Hk1 & _).
    destruct (names_unique_at_same_decls _ _ _ _ _ Hu Hsame Hk1) as [Hd Hu1].
    specialize (IH _ _ _ Hu1 Hloop Hr).
    replace (shortName (match (if bool_decide (c = shortName o) then 1%nat else 0%nat)
                        with O => o | S _ => set_isSet true o end))
      with (shortName o) in IH by by case_bool_decide.
    apply (option_effect_trans _ _ _ _ _ _ _ _ _ _ Hsame Hstep IH).
Qed.

Lemma handleOption_effect k o tok more p w r p' w' :
  names_unique_at k o (options p) →
  handleOption atoi atof tok more p w = (r, p', w') → 0 ≤ r →
  option_effect k o (uses o tok) (options p) w (options p') w'.
Proof.
  intros Hu Hstep Hr.
  destruct (token_shape atoi atof tok) as [(c1 & name & ->)|(_ & _ & Huses & Hpush)].
  2:{ rewrite Hpush in Hstep. injection Hstep as <- <- <-. rewrite Huses.
      apply option_effect_refl, Hu. }
  rewrite handleOption_option_token in Hstep. cbv zeta in Hstep. unfold uses.
  destruct (Ascii.eqb c1 "-"); cbn [negb] in Hstep.
  - destruct (longOptionLoop atoi atof name _ (options p) w)
      as [[[r0 opts1] w1]|] eqn:Hlong; [|injection Hstep as <- _ _; lia].
    injection Hstep as <- <- <-. simpl.
    destruct (longOptionLoop_matched _ _ _ _ _ _ _ _ _ Hlong)
      as (k0 & o0 & o0' & Hk0 & -> & _ & _ & -> & Happ).
    destruct (decide (k0 = k)) as [->|Hne].
    + destruct Hu as [Hk ?]. rewrite Hk in Hk0. injection Hk0 as <-.
      rewrite bool_decide_eq_true_2 by done. by eapply applyOption_effect.
    + rewrite bool_decide_eq_false_2 by by apply (proj2 Hu k0 o0).
      by eapply applyOption_other_effect.
  - destruct (clusterLoop atoi atof (String c1 name)
                (String "-" (String c1 name) :: more) (options p) w)
      as [[r0 opts1] w1] eqn:Hcluster.
    injection Hstep as <- <- <-.
    exact (clusterLoop_effect _ _ _ _ _ _ _ _ _ Hu Hcluster Hr).
Qed.

Lemma parseLoop_effect k toks skip o p w p' w' :
  names_unique_at k o (options p) →
  parseLoop atoi atof skip toks p w = (true, p', w') →
  option_effect k o (sum_list (uses o <$> classified (options p) skip toks))
    (options p) w (options p') w'.
Proof.
  revert skip o p w. induction toks as [|tok toks IH]; intros skip o p w Hu Hloop.
  { destruct skip; injection Hloop as <- <-; apply option_effect_refl, Hu. }
  destruct skip as [|skip]; [|by apply IH].
  simpl in Hloop.
  destruct (handleOption atoi atof tok toks p w) as [[r p1] w1] eqn:Hstep.
  destruct (r <? 0) eqn:Hr; [done|]. apply Z.ltb_ge in Hr.
  destruct (handleOption_general _ _ _ _ _ _ _ _ _ Hstep) as (Hsame & _ & _ & _ & Hres).
  destruct Hres as [(-> & _)|(_ & -> & _)]; [lia|].
  pose proof (handleOption_effect _ _ _ _ _ _ _ _ _ Hu Hstep Hr) as Heff.
  pose proof Heff as (Hk1 & _).
  destruct (names_unique_at_same_decls _ _ _ _ _ Hu Hsame Hk1) as [Hd Hu1].
  replace (Z.to_nat (if takes_parameter (options p) tok then 1 else 0))
    with (if takes_parameter (options p) tok then 1%nat else 0%nat) in Hloop
    by by destruct (takes_parameter _ _).
  specialize (IH _ _ _ _ Hu1 Hloop).
  rewrite <- (classified_same_decls _ _ _ _ Hsame) in IH.
  rewrite (list_fmap_ext _ (uses o) (classified (options p) _ toks)) in IH
    by (intros; symmetry; by apply uses_decl).
  apply (option_effect_trans _ _ _ _ _ _ _ _ _ _ Hsame Heff IH).
Qed.

End Unique.

(** ** The claims about the scan, the required pass and path validation *)

Section Claims.

Context {float : Type}.
Variable atoi : string → Z.
Variable atof : string → float.
Variable fopen_rb : option string → bool.

Implicit Types (opt o : Option) (opts : list Option) (argv more toks : list string).
Implicit Types (w : World float) (p : Parser) (d : Diagnostic).

Lemma parse_unfold argv p w :
  parse atoi atof argv p w =
    let '(scanned, p', w') :=
      parseLoop atoi atof 0 (tail argv)
        (mkParser (options p) (remaining p) (argv !! 0%nat)) w in
    if negb scanned then (false, p', w')
    else let '(ok, w'') := requiredLoop (options p') w' in (ok, p', w'').
Proof. reflexivity. Qed.

Lemma requiredLoop_heap opts w : heap (requiredLoop opts w).2 = heap w.
Proof. induction opts as [|o opts IH]; simpl; [done|]. by destruct (_ && _). Qed.

(** A token on which [handleOption] fails whatever the state of the
    declared options makes the scan fail wherever the scan classifies it. *)
Lemma parseLoop_rejects (bad : string → Prop) opts0 :
  (∀ tok more p w, bad tok → same_decls opts0 (options p) →
     (handleOption atoi atof tok more p w).1.1 < 0) →
  ∀ toks skip p w,
    same_decls opts0 (options p) →
    (∃ tok, tok ∈ classified opts0 skip toks ∧ bad tok) →
    (parseLoop atoi atof skip toks p w).1.1 = false.
Proof.
  intros Hbad. induction toks as [|tok toks IH]; intros skip p w Hsame (t & Hin & Ht).
  { destruct skip; by apply elem_of_nil in Hin. }
  destruct skip as [|skip]; simpl in *; [|by apply IH; eauto].
  destruct (handleOption atoi atof tok toks p w) as [[r p1] w1] eqn:Hstep.
  destruct (r <? 0) eqn:Hr; [done|]. apply Z.ltb_ge in Hr.
  destruct (handleOption_general _ _ _ _ _ _ _ _ _ Hstep) as (Hsame1 & _ & _ & _ & Hres).
  apply elem_of_cons in Hin as [->|Hin].
  { specialize (Hbad tok toks p w Ht Hsame). rewrite Hstep in Hbad. simpl in Hbad. lia. }
  destruct Hres as [(-> & _)|(_ & -> & _)]; [lia|].
  rewrite <- (takes_parameter_same_decls _ _ _ Hsame).
  apply IH; [by eapply same_decls_trans|].
  exists t. by destruct (takes_parameter opts0 tok).
Qed.

(** C7: the remaining-arguments list grows by positional tokens only, in
    the order of the command line and unchanged: whatever the parse
    returns, what it appended is a prefix of the positional tokens among
    those the scan classifies (tokens not starting with [-], or [-] alone,
    that no option took as its parameter); it is all of them when the scan
    went through every token, that is when the parse succeeds or fails on a
    required option only. *)
Theorem remaining_arguments_are_positional_tokens argv p w ok p' w' :
  parse atoi atof argv p w = (ok, p', w') →
  (∃ l, remaining p' = (remaining p ++ l)%list
      ∧ l `prefix_of` positional_tokens (options p) 0 (tail argv))
  ∧ (ok = true ∨ (∃ c l, stderr w' = (stderr w ++ [ErrRequired c l])%list) →
     remaining p' = (remaining p ++ positional_tokens (options p) 0 (tail argv))%list).
Proof.
  rewrite parse_unfold.
  destruct (parseLoop atoi atof 0 (tail argv) _ w) as [[scanned p1] w1] eqn:Hloop.
  destruct (parseLoop_general _ _ _ _ _ _ _ _ _ Hloop)
    as (_ & _ & l & Hrem & Hpre & Hb). simpl in *.
  destruct scanned; simpl.
  - destruct (requiredLoop (options p1) w1) as [ok1 w2]. intros [= <- <- <-].
    destruct Hb as [_ ->]. eauto.
  - intros [= <- <- <-]. split; [eauto|].
    intros [|(c & l' & Hlog)]; [done|].
    destruct Hb as (d & Hlog' & Hscan & _). rewrite Hlog' in Hlog.
    apply app_inv_head in Hlog. injection Hlog as ->. done.
Qed.

(** C6: the required options are checked once the scan has completed
    without error, and only then: a failed scan is returned as it is; after
    a completed scan the first declared option that is required and not set
    is reported and the parse fails; with every required option set the
    parse succeeds. *)
Theorem required_options_checked_after_scan argv p w scanned p1 w1 :
  parseLoop atoi atof 0 (tail argv)
    (mkParser (options p) (remaining p) (argv !! 0%nat)) w = (scanned, p1, w1) →
  (scanned = false → parse atoi atof argv p w = (false, p1, w1))
  ∧ (scanned = true →
     (∀ l1 o l2,
        options p1 = (l1 ++ o :: l2)%list → Forall (λ x, missing x = false) l1 →
        isRequired o = true → isSet o = false →
        parse atoi atof argv p w
        = (false, p1, CLI_LOG_ERROR (ErrRequired (shortName o) (longName o)) w1))
     ∧ (Forall (λ x, isRequired x = true → isSet x = true) (options p1) →
        parse atoi atof argv p w = (true, p1, w1))).
Proof.
  intros Hloop. rewrite parse_unfold, Hloop. split; [by intros ->|]. intros ->. simpl.
  split.
  - intros l1 o l2 -> Hl1 Hreq Hset.
    assert (requiredLoop (l1 ++ o :: l2) w1
            = (false, CLI_LOG_ERROR (ErrRequired (shortName o) (longName o)) w1)) as ->;
      [|done].
    induction Hl1 as [|x l1 Hx _ IH]; simpl.
    + by rewrite Hreq, Hset.
    + unfold missing in Hx. by rewrite Hx.
  - intros Hall.
    assert (requiredLoop (options p1) w1 = (true, w1)) as ->; [|done].
    induction Hall as [|x l Hx _ IH]; simpl; [done|].
    destruct (isRequired x) eqn:Hr; simpl; [|done]. by rewrite Hx.
Qed.

(** [checkExistsReadable] answers whether [fopen] opened the path. *)
Lemma checkExistsReadable_fopen path :
  checkExistsReadable fopen_rb path = fopen_rb path.
Proof. unfold checkExistsReadable. by destruct (fopen_rb path). Qed.

Lemma validateLoop_all opts valid w :
  (validateLoop fopen_rb opts valid w).1
    = valid && forallb (path_readable fopen_rb (heap w))
                 (List.filter is_PathExisting opts)
  ∧ heap (validateLoop fopen_rb opts valid w).2 = heap w
  ∧ stderr (validateLoop fopen_rb opts valid w).2
    = (stderr w
       ++ map not_readable
            (List.filter (λ o, negb (path_readable fopen_rb (heap w) o))
               (List.filter is_PathExisting opts)))%list.
Proof.
  revert valid w. induction opts as [|o opts IH]; intros valid w.
  { simpl. by rewrite andb_true_r, app_nil_r. }
  cbn [validateLoop List.filter].
  change (bool_decide (type o = OptionType.PathExisting)) with (is_PathExisting o).
  rewrite checkExistsReadable_fopen.
  change (fopen_rb (strs (heap w) (valuePointer o)))
    with (path_readable fopen_rb (heap w) o).
  destruct (is_PathExisting o); cbn [andb]; [|by apply IH].
  cbn [List.filter forallb].
  destruct (path_readable fopen_rb (heap w) o) eqn:Hp; cbn [negb andb]; [by apply IH|].
  destruct (IH false (CLI_LOG_ERROR (ErrNotReadable (shortName o) (longName o)) w))
    as (-> & -> & ->).
  simpl. by rewrite andb_false_r, <- app_assoc.
Qed.

(** C8: [validatePathOptions] returns the conjunction, over every declared
    option of kind PathExisting, of whether its bound path opens for
    reading; it goes through all of them, reporting each one that fails, in
    declaration order, and leaves the caller's variables as they are. With
    no option of kind PathExisting it returns true. *)
Theorem validatePathOptions_conjunction p w :
  let checked := List.filter is_PathExisting (options p) in
  let failed := List.filter (λ o, negb (path_readable fopen_rb (heap w) o)) checked in
  (validatePathOptions fopen_rb p w).1
    = forallb (path_readable fopen_rb (heap w)) checked
  ∧ heap (validatePathOptions fopen_rb p w).2 = heap w
  ∧ stderr (validatePathOptions fopen_rb p w).2
    = (stderr w ++ map not_readable failed)%list.
Proof. apply (validateLoop_all (options p) true w). Qed.

Lemma longOptionLoop_none name argv opts w :
  Forall (λ o, longName o ≠ name) opts →
  longOptionLoop atoi atof name argv opts w = None.
Proof.
  induction 1 as [|o opts Ho _ IH]; simpl; [done|].
  rewrite bool_decide_eq_false_2 by done. by rewrite IH.
Qed.

(** C10: the token [--] is a long option with the empty name. When no
    declared option has an empty [longName], [handleOption] reports it as
    an unknown option and leaves the parser as it was (nothing is added to
    the remaining arguments); a parse fails wherever the scan classifies
    such a token, so the tokens after it are never reached. *)
Theorem double_dash_is_unknown_option p :
  Forall (λ o, longName o ≠ "") (options p) →
  is_positional "--" = false
  ∧ (∀ more w,
       handleOption atoi atof "--" more p w
       = (-1, p, CLI_LOG_ERROR (ErrUnknownLong "--") w))
  ∧ (∀ argv w,
       "--" ∈ classified (options p) 0 (tail argv) →
       (parse atoi atof argv p w).1.1 = false).
Proof.
  intros Hlong. split; [done|].
  assert (Hstep : ∀ more p1 w, same_decls (options p) (options p1) →
            handleOption atoi atof "--" more p1 w
            = (-1, p1, CLI_LOG_ERROR (ErrUnknownLong "--") w)).
  { intros more p1 w Hsame. rewrite handleOption_option_token. cbv zeta.
    rewrite longOptionLoop_none; [done|].
    apply Forall_lookup_2. intros j o1 Hj.
    destruct (same_decls_lookup _ _ _ _ Hsame Hj) as (o0 & Hj0 & Hd).
    destruct (decl_fields _ _ Hd) as (_ & _ & <- & _).
    by apply (Forall_lookup_1 _ _ _ _ Hlong Hj0). }
  split.
  - intros more w. apply Hstep, same_decls_refl.
  - intros argv w Hin. rewrite parse_unfold.
    assert ((parseLoop atoi atof 0 (tail argv)
               (mkParser (options p) (remaining p) (argv !! 0%nat)) w).1.1 = false)
      as Hrej.
    { apply (parseLoop_rejects (λ tok, tok = "--") (options p));
        [|apply same_decls_refl|by exists "--"].
      intros tok more p1 w1 -> Hsame. by rewrite Hstep. }
    destruct (parseLoop atoi atof 0 (tail argv) _ w) as [[scanned p1] w1].
    simpl in Hrej. by subst scanned.
Qed.

(** C4: an option that is not a FlagCount, declared under names no other
    declaration uses, cannot be invoked twice in one parse: when the tokens
    the scan classifies invoke it two times or more (by its short name in
    clusters, by its long name, or both), [parse] returns false. *)
Theorem second_invocation_fails k o argv p w :
  names_unique_at k o (options p) →
  type o ≠ OptionType.FlagCount →
  (2 ≤ invocations o (options p) (tail argv))%nat →
  (parse atoi atof argv p w).1.1 = false.
Proof.
  intros Hu Ht Htwice. rewrite parse_unfold.
  destruct (parseLoop atoi atof 0 (tail argv) _ w) as [[[] p1] w1] eqn:Hloop; [|done].
  apply (parseLoop_effect atoi atof k _ _ o) in Hloop; [|done].
  destruct Hloop as (_ & Hone & _). unfold invocations in Htwice.
  simpl in Hone. destruct (Hone Ht); lia.
Qed.

Lemma to_int_in_range z : INT_MIN ≤ z ≤ INT_MAX → to_int z = z.
Proof.
  unfold to_int, INT_MIN, INT_MAX. intros Hz.
  rewrite Z.mod_small; lia.
Qed.

Lemma iter_increment x n :
  INT_MIN ≤ x → x + Z.of_nat n ≤ INT_MAX →
  Nat.iter n increment x = x + Z.of_nat n.
Proof.
  intros Hlo. induction n as [|n IH]; intros Hhi; simpl; [lia|].
  rewrite IH by lia. unfold increment. rewrite to_int_in_range; lia.
Qed.

(** C5, amended: after a successful parse, the [int] bound to a FlagCount
    option holds the value the caller gave it plus the number of times the
    option was invoked (by its short name in clusters and by its long name),
    provided the option has names of its own, no other Int or FlagCount
    option is bound to the same variable and the sum fits in an [int]. With
    no invocation the value is the caller's. *)
Theorem flag_count_adds_invocations k o argv p w p' w' :
  names_unique_at k o (options p) →
  type o = OptionType.FlagCount →
  int_target_exclusive_at k o (options p) →
  parse atoi atof argv p w = (true, p', w') →
  INT_MIN ≤ ints (heap w) (valuePointer o) →
  ints (heap w) (valuePointer o)
    + Z.of_nat (invocations o (options p) (tail argv)) ≤ INT_MAX →
  ints (heap w') (valuePointer o)
  = ints (heap w) (valuePointer o)
    + Z.of_nat (invocations o (options p) (tail argv)).
Proof.
  intros Hu Ht Hex Hparse Hlo Hhi. rewrite parse_unfold in Hparse.
  destruct (parseLoop atoi atof 0 (tail argv) _ w) as [[[] p1] w1] eqn:Hloop;
    [|done]. simpl in Hparse.
  pose proof (requiredLoop_heap (options p1) w1) as Hheap.
  destruct (requiredLoop (options p1) w1) as [ok w2]. injection Hparse as -> -> ->.
  simpl in Hheap. rewrite Hheap.
  apply (parseLoop_effect atoi atof k _ _ o) in Hloop; [|done].
  destruct Hloop as (_ & _ & ->); [|exact Ht|exact Hex]. unfold invocations in *.
  by apply iter_increment.
Qed.

Lemma requiredLoop_log opts w :
  requiredLoop opts w = (true, w)
  ∨ ∃ c l, requiredLoop opts w = (false, CLI_LOG_ERROR (ErrRequired c l) w).
Proof.
  induction opts as [|o opts IH]; simpl; [by left|].
  destruct (isRequired o && negb (isSet o)); [right; eauto|done].
Qed.

(** C9: when [applyOption] reports a missing parameter or an invalid
    integer or float literal, the option was not set before the call, the
    call has set its [isSet] and has written nothing to the caller's
    variables; and when a parse ends on such a diagnostic it has failed and
    the declared option the diagnostic names has [isSet] true. *)
Theorem parameter_error_after_isSet :
  (∀ opt argv w r opt' w' d,
     applyOption atoi atof opt argv w = (r, opt', w') →
     stderr w' = (stderr w ++ [d])%list → is_Some (parameter_error d) →
     r = -1 ∧ isSet opt = false ∧ isSet opt' = true ∧ heap w' = heap w)
  ∧ (∀ argv p w ok p' w' d c l,
       parse atoi atof argv p w = (ok, p', w') →
       stderr w' = (stderr w ++ [d])%list → parameter_error d = Some (c, l) →
       ok = false
       ∧ ∃ o, o ∈ options p' ∧ shortName o = c ∧ longName o = l ∧ isSet o = true).
Proof.
  assert (Hnil : ∀ (l : list Diagnostic) d, l ≠ (l ++ [d])%list).
  { intros l d Heq. apply (f_equal length) in Heq. rewrite length_app in Heq.
    simpl in Heq. lia. }
  split.
  - intros opt argv w r opt' w' d Happ%applyOption_outcome Hlog Herr.
    destruct Happ; simpl in Hlog; try (by apply Hnil in Hlog);
      apply app_inv_head in Hlog; injection Hlog as <-;
      first [by destruct Herr | done].
  - intros argv p w ok p' w' d c l Hparse Hlog Hd. rewrite parse_unfold in Hparse.
    destruct (parseLoop atoi atof 0 (tail argv) _ w) as [[scanned p1] w1] eqn:Hloop.
    destruct (parseLoop_general _ _ _ _ _ _ _ _ _ Hloop) as (_ & _ & rem & _ & _ & Hb).
    destruct scanned; simpl in Hparse.
    + destruct Hb as [Hlog1 _].
      destruct (requiredLoop_log (options p1) w1) as [Hreq|(c' & l' & Hreq)];
        rewrite Hreq in Hparse; injection Hparse as <- <- <-.
      * rewrite Hlog1 in Hlog. by apply Hnil in Hlog.
      * simpl in Hlog. rewrite Hlog1 in Hlog. apply app_inv_head in Hlog.
        injection Hlog as <-. done.
    + injection Hparse as <- <- <-. destruct Hb as (d' & Hlog' & _ & Hrep).
      rewrite Hlog' in Hlog. apply app_inv_head in Hlog. injection Hlog as ->.
      split; [done|]. by apply Hrep.
Qed.

Lemma append_String_nonempty pre c post : pre +:+ String c post ≠ "".
Proof. by destruct pre. Qed.

Lemma append_String_head pre c post :
  String.prefix "-" (pre +:+ String c post) = false →
  ∃ c1 name, pre +:+ String c post = String c1 name ∧ Ascii.eqb c1 "-" = false.
Proof.
  assert (Hhead : ∀ c1 name, String.prefix "-" (String c1 name) = false →
            Ascii.eqb c1 "-" = false).
  { intros c1 name Hpre. apply Ascii.eqb_neq. intros ->. by destruct name. }
  destruct pre as [|d pre]; cbv [String.append]; fold String.append; eauto.
Qed.

Lemma clusterLoop_middle_parameter pre c post argv opts w :
  post ≠ "" →
  existsb (λ o, bool_decide (shortName o = c) && requiresParameter o) opts = true →
  (clusterLoop atoi atof (pre +:+ String c post) argv opts w).1.1 = -1.
Proof.
  intros Hpost. revert opts w.
  induction pre as [|ch pre IH]; intros opts w Hex;
    cbv [String.append]; fold String.append.
  - destruct (shortOptionLoop atoi atof c false argv opts false w)
      as [[[opts1 handled1] w1] ret] eqn:Hshort.
    pose proof (shortOptionLoop_run _ _ _ _ _ _ _ _ _ _ _ _ Hshort) as Hrun.
    simpl. rewrite bool_decide_eq_false_2, Hshort by done.
    destruct ret as [r0|].
    + by destruct (ShortRun_returned _ _ _ _ _ _ _ _ _ _ _ _ r0 Hrun eq_refl)
        as [[-> _]|(_ & _ & ? & _)].
    + destruct (ShortRun_completed _ _ _ _ _ _ _ _ _ _ _ _ Hrun eq_refl) as (_ & Hreq & _).
      apply existsb_exists in Hex as (o & Ho%list_elem_of_In & Hm).
      apply andb_true_iff in Hm as [Hc%bool_decide_eq_true Hp].
      by rewrite (Hreq o Ho Hc) in Hp.
  - destruct (shortOptionLoop atoi atof ch false argv opts false w)
      as [[[opts1 handled1] w1] ret] eqn:Hshort.
    pose proof (shortOptionLoop_run _ _ _ _ _ _ _ _ _ _ _ _ Hshort) as Hrun.
    simpl. rewrite bool_decide_eq_false_2, Hshort by apply append_String_nonempty.
    destruct ret as [r0|].
    + by destruct (ShortRun_returned _ _ _ _ _ _ _ _ _ _ _ _ r0 Hrun eq_refl)
        as [[-> _]|(_ & _ & ? & _)].
    + destruct handled1; simpl; [|done]. apply IH.
      rewrite <- Hex. symmetry. apply existsb_same_decls; [|by eapply ShortRun_same_decls].
      intros o o' Hd. rewrite (decl_requiresParameter _ _ Hd).
      by destruct (decl_fields _ _ Hd) as (_ & -> & _).
Qed.

Lemma clusterLoop_final_parameter k o pre argv opts w r opts' w' :
  names_unique_at k o opts → requiresParameter o = true →
  clusterLoop atoi atof (pre +:+ String (shortName o) "") argv opts w = (r, opts', w') →
  0 ≤ r →
  r = 1 ∧ ∃ s, argv !! 1%nat = Some s ∧ bound_parameter atoi atof o s (heap w').
Proof.
  intros Hu Hreq. revert opts w Hu.
  induction pre as [|ch pre IH]; intros opts w Hu;
    cbv [String.append]; fold String.append; simpl.
  - rewrite (shortOptionLoop_unique atoi atof k o) by done. rewrite andb_false_r.
    destruct (applyOption atoi atof o argv w) as [[r0 o'] w0] eqn:Happ.
    apply applyOption_outcome in Happ.
    destruct (ApplyOutcome_result _ _ _ _ _ _ _ _ Happ) as [->|[->| ->]]; simpl.
    + intros [= <- _ _]. lia.
    + destruct (ApplyOutcome_flag _ _ _ _ _ _ _ _ Happ eq_refl) as (Hno & _). congruence.
    + intros [= <- <- <-] _.
      destruct (ApplyOutcome_parameter _ _ _ _ _ _ _ _ Happ)
        as (_ & _ & _ & _ & _ & s & Hs & Hbound); [lia|]. eauto.
  - rewrite bool_decide_eq_false_2 by apply append_String_nonempty.
    destruct (shortOptionLoop atoi atof ch false argv opts false w)
      as [[[opts1 handled1] w1] ret] eqn:Hshort.
    pose proof (shortOptionLoop_run _ _ _ _ _ _ _ _ _ _ _ _ Hshort) as Hrun.
    destruct ret as [r0|].
    + destruct (ShortRun_returned _ _ _ _ _ _ _ _ _ _ _ _ r0 Hrun eq_refl)
        as [[-> _]|(_ & _ & ? & _)]; [|done].
      intros [= <- _ _]. lia.
    + destruct handled1; simpl; [|intros [= <- _ _]; lia].
      destruct (decide (shortName o = ch)) as [<-|Hne].
      { rewrite (shortOptionLoop_unique atoi atof k o) in Hshort by done.
        by rewrite Hreq in Hshort. }
      destruct (shortOptionLoop_other atoi atof _ _ _ _ _ _ _ _ _ _ _ _ Hu Hne Hshort)
        as (Hk1 & _).
      apply IH. eapply names_unique_at_same_decls; [done| |done].
      by eapply ShortRun_same_decls.
Qed.

(** C3: in a short-option cluster, a character that names an option which
    requires a parameter makes [handleOption], and with it any parse whose
    scan classifies the token, fail when it is not the last character; when it
    is the last character and the call succeeds, the result is 1, the token
    after the cluster is bound to the variable of the option (the only one of
    that short name) and the scan resumes after that token. *)
Theorem parameter_option_in_cluster k o pre post p :
  options p !! k = Some o → requiresParameter o = true →
  String.prefix "-" (pre +:+ String (shortName o) post) = false →
  (post ≠ "" →
   (∀ more w,
      (handleOption atoi atof (String "-" (pre +:+ String (shortName o) post))
         more p w).1.1 = -1)
   ∧ (∀ argv w,
        String "-" (pre +:+ String (shortName o) post)
          ∈ classified (options p) 0 (tail argv) →
        (parse atoi atof argv p w).1.1 = false))
  ∧ (post = "" → names_unique_at k o (options p) →
     ∀ more w r p' w',
       handleOption atoi atof (String "-" (pre +:+ String (shortName o) post))
         more p w = (r, p', w') →
       0 ≤ r →
       ∃ next more',
         more = next :: more' ∧ r = 1
         ∧ bound_parameter atoi atof o next (heap w')
         ∧ parseLoop atoi atof 0
             (String "-" (pre +:+ String (shortName o) post) :: more) p w
           = parseLoop atoi atof 0 more' p' w').
Proof.
  intros Hk Hreq Hhead.
  destruct (append_String_head _ _ _ Hhead) as (c1 & name & Hcluster & Hc1).
  split.
  - intros Hpost.
    assert (Hstep : ∀ more p1 w, same_decls (options p) (options p1) →
              (handleOption atoi atof (String "-" (pre +:+ String (shortName o) post))
                 more p1 w).1.1 = -1).
    { intros more p1 w Hsame.
      pose proof (clusterLoop_middle_parameter pre (shortName o) post
                    (String "-" (pre +:+ String (shortName o) post) :: more)
                    (options p1) w Hpost) as Hmid.
      rewrite Hcluster in *. rewrite handleOption_option_token. cbv zeta.
      rewrite Hc1. cbn [negb].
      destruct (clusterLoop atoi atof (String c1 name) _ (options p1) w)
        as [[r0 opts1] w1]. apply Hmid.
      destruct (Forall2_lookup_l _ _ _ _ _ Hsame Hk) as (o1 & Hk1 & Hd).
      apply existsb_exists. exists o1. split.
      - apply list_elem_of_In. by eapply list_elem_of_lookup_2.
      - rewrite <- (decl_requiresParameter _ _ Hd), Hreq.
        destruct (decl_fields _ _ Hd) as (_ & <- & _).
        by rewrite bool_decide_eq_true_2. }
    split; [intros more w; apply Hstep, same_decls_refl|].
    intros argv w Hin. rewrite parse_unfold.
    assert ((parseLoop atoi atof 0 (tail argv)
               (mkParser (options p) (remaining p) (argv !! 0%nat)) w).1.1 = false)
      as Hrej.
    { apply (parseLoop_rejects
               (λ tok, tok = String "-" (pre +:+ String (shortName o) post)) (options p));
        [|apply same_decls_refl|by eexists].
      intros tok more p1 w1 -> Hsame. rewrite Hstep; [lia|done]. }
    destruct (parseLoop atoi atof 0 (tail argv) _ w) as [[scanned p1] w1].
    simpl in Hrej. by subst scanned.
  - intros -> Hu more w r p' w' Hstep Hr.
    assert (r = 1 ∧ ∃ s, (String "-" (pre +:+ String (shortName o) "") :: more) !! 1%nat
                           = Some s
                         ∧ bound_parameter atoi atof o s (heap w'))
      as (-> & next & Hnext & Hbound).
    { revert Hstep. rewrite Hcluster, handleOption_option_token. cbv zeta.
      rewrite Hc1. cbn [negb]. rewrite <- Hcluster.
      destruct (clusterLoop atoi atof _ _ (options p) w) as [[r0 opts1] w1] eqn:Hloop.
      intros [= <- <- <-]. by eapply clusterLoop_final_parameter. }
    destruct more as [|next' more']; [done|]. injection Hnext as ->.
    exists next, more'. split_and!; try done.
    cbn [parseLoop]. by rewrite Hstep.
Qed.

End Claims.

(** ** The test cases of the repository, and instances of the theorems *)

Example test_option_types :
  let '(ok, p, w) :=
    parse test_atoi test_atof
      ["testExe"; "-S"; "fileName"; "--output-file"; "output.txt"; "-F"; "0.5";
       "-VVV"; "-D"; "-I"; "23"; "File1"; "File2"]
      test_types (test_world 0) in
  ok = true ∧ ints (heap w) 0%nat = 23 ∧ floats (heap w) 0%nat = "0.5"
  ∧ strs (heap w) 0%nat = Some "fileName" ∧ strs (heap w) 1%nat = Some "output.txt"
  ∧ bools (heap w) 0%nat = true ∧ ints (heap w) 1%nat = 3
  ∧ remaining p = ["File1"; "File2"].
Proof. vm_compute. by repeat split. Qed.

Example test_path_validation :
  let '(ok, p, w) :=
    parse test_atoi test_atof ["testExe"; "-S"; "../CmakeLists.txt"]
      test_path (test_world 0) in
  ok = true
  ∧ (validatePathOptions (test_fopen ["../CmakeLists.txt"]) p w).1 = true
  ∧ (validatePathOptions (test_fopen []) p w).1 = false.
Proof. vm_compute. by repeat split. Qed.

Lemma test_string_names_unique :
  names_unique_at 1 test_string (options test_count_string).
Proof.
  split; [reflexivity|].
  intros [|[|j]] o' Hj Hne; simpl in Hj; [|done|done].
  injection Hj as <-. by split.
Qed.

Lemma test_verbose_names_unique :
  names_unique_at 0 test_verbose (options test_count_string).
Proof.
  split; [reflexivity|].
  intros [|[|j]] o' Hj Hne; simpl in Hj; [done| |done].
  injection Hj as <-. by split.
Qed.

Lemma test_verbose_exclusive :
  int_target_exclusive_at 0 test_verbose (options test_count_string).
Proof.
  intros [|[|j]] o' Hj Hne; simpl in Hj; [done| |done].
  injection Hj as <-. by intros [|].
Qed.

(** "Short option string parameter in middle" ([-vvSv fileName] fails) and
    "Short option string parameter at end" ([-vvvS fileName] binds the
    string): C3 on the parser of these tests. *)
Lemma parameter_option_in_cluster_test :
  (parse test_atoi test_atof ["testExe"; "-vvSv"; "fileName"]
     test_count_string (test_world 0)).1.1 = false
  ∧ ∃ next more',
      ["fileName"] = next :: more'
      ∧ (handleOption test_atoi test_atof "-vvvS" ["fileName"]
           test_count_string (test_world 0)).1.1 = 1
      ∧ bound_parameter test_atoi test_atof test_string next
          (heap (handleOption test_atoi test_atof "-vvvS" ["fileName"]
                   test_count_string (test_world 0)).2).
Proof.
  split.
  - destruct (parameter_option_in_cluster test_atoi test_atof 1 test_string "vv" "v"
                test_count_string eq_refl eq_refl eq_refl) as [Hmiddle _].
    destruct (Hmiddle ltac:(discriminate)) as [_ Hparse].
    apply Hparse. vm_compute. apply list_elem_of_here.
  - destruct (parameter_option_in_cluster test_atoi test_atof 1 test_string "vvv" ""
                test_count_string eq_refl eq_refl eq_refl) as [_ Hlast].
    destruct (Hlast eq_refl test_string_names_unique ["fileName"] (test_world 0)
                _ _ _ eq_refl ltac:(vm_compute; discriminate))
      as (next & more' & Hmore & Hr & Hbound & _).
    exists next, more'. vm_compute in Hr. auto.
Defined.

(** [-S a --string b] invokes the String option twice, once under each
    name: C4 on the parser of "Remaining args". *)
Lemma second_invocation_fails_test :
  (parse test_atoi test_atof ["testExe"; "-S"; "a"; "--string"; "b"]
     test_count_string (test_world 0)).1.1 = false.
Proof.
  apply (second_invocation_fails test_atoi test_atof 1 test_string).
  - exact test_string_names_unique.
  - discriminate.
  - vm_compute. lia.
Defined.

(** C5, as stated, fails when the caller's count does not start at 0: one
    invocation of [-v] on a count of 5 leaves 6, not 1. *)
Lemma flag_count_not_exactly_invocations :
  let run := parse test_atoi test_atof ["testExe"; "-v"]
               test_count_string (test_world 5) in
  run.1.1 = true
  ∧ invocations test_verbose (options test_count_string) ["-v"] = 1%nat
  ∧ ints (heap run.2) (valuePointer test_verbose) = 6
  ∧ ints (heap run.2) (valuePointer test_verbose)
    ≠ Z.of_nat (invocations test_verbose (options test_count_string) ["-v"]).
Proof. vm_compute. by repeat split. Qed.

(** "Remaining args" ([-vvv -S something somefile]) on a count of 5: three
    invocations leave 8. *)
Lemma flag_count_adds_invocations_test :
  ints (heap (parse test_atoi test_atof
                ["testExe"; "-vvv"; "-S"; "something"; "somefile"]
                test_count_string (test_world 5)).2) 0%nat
  = 5 + Z.of_nat 3.
Proof.
  apply (flag_count_adds_invocations test_atoi test_atof 0 test_verbose
           ["testExe"; "-vvv"; "-S"; "something"; "somefile"]
           test_count_string (test_world 5)
           (parse test_atoi test_atof
              ["testExe"; "-vvv"; "-S"; "something"; "somefile"]
              test_count_string (test_world 5)).1.2).
  - exact test_verbose_names_unique.
  - reflexivity.
  - exact test_verbose_exclusive.
  - vm_compute. reflexivity.
  - vm_compute. discriminate.
  - vm_compute. discriminate.
Defined.

(** "Long option required string parameter": no token, the required option
    is reported. *)
Lemma required_options_checked_after_scan_test :
  parse test_atoi test_atof ["testExe"] test_required (test_world 0)
  = (false, mkParser (options test_required) [] (Some "testExe"),
     CLI_LOG_ERROR (ErrRequired "S" "string") (test_world 0)).
Proof.
  destruct (required_options_checked_after_scan test_atoi test_atof
              ["testExe"] test_required (test_world 0)
              true (mkParser (options test_required) [] (Some "testExe"))
              (test_world 0) eq_refl) as [_ Hscanned].
  destruct (Hscanned eq_refl) as [Hfirst _].
  apply (Hfirst [] (OptionString "S" "string" "some string" true 0) []);
    [reflexivity|constructor|reflexivity|reflexivity].
Defined.

(** "Remaining args": [somefile] is the one remaining argument. *)
Lemma remaining_arguments_test :
  remaining (parse test_atoi test_atof
               ["testExe"; "-vvv"; "-S"; "something"; "somefile"]
               test_count_string (test_world 0)).1.2
  = ["somefile"].
Proof.
  destruct (remaining_arguments_are_positional_tokens test_atoi test_atof
              ["testExe"; "-vvv"; "-S"; "something"; "somefile"]
              test_count_string (test_world 0) true
              (parse test_atoi test_atof
                 ["testExe"; "-vvv"; "-S"; "something"; "somefile"]
                 test_count_string (test_world 0)).1.2
              (parse test_atoi test_atof
                 ["testExe"; "-vvv"; "-S"; "something"; "somefile"]
                 test_count_string (test_world 0)).2
              eq_refl) as [_ Hall].
  exact (eq_trans (Hall (or_introl eq_refl)) eq_refl).
Defined.

(** [-I abc] and [-I] with nothing after it: the Int option of "Option
    types" is left set, and nothing is written. *)
Lemma parameter_error_after_isSet_test :
  (let '(r, opt', w') :=
     applyOption test_atoi test_atof test_int ["-I"; "abc"] (test_world 0) in
   r = -1 ∧ isSet test_int = false ∧ isSet opt' = true
   ∧ heap w' = heap (test_world 0))
  ∧ (let '(ok, p', w') :=
       parse test_atoi test_atof ["testExe"; "-I"] test_types (test_world 0) in
     ok = false
     ∧ ∃ o, o ∈ options p' ∧ shortName o = "I"%char ∧ longName o = "int"
            ∧ isSet o = true).
Proof.
  destruct (parameter_error_after_isSet test_atoi test_atof) as [Happly Hparse].
  split.
  - apply (Happly test_int ["-I"; "abc"] (test_world 0) _ _ _
             (ErrInvalidInteger "abc" "I" "int") eq_refl eq_refl).
    by eexists.
  - apply (Hparse ["testExe"; "-I"] test_types (test_world 0) _ _ _
             (ErrMissingParameter "I" "int") "I"%char "int" eq_refl eq_refl eq_refl).
Defined.

(** [--] on the parser of "Option types": an unknown option, not a
    remaining argument. *)
Lemma double_dash_is_unknown_option_test :
  handleOption test_atoi test_atof "--" ["File1"] test_types (test_world 0)
  = (-1, test_types, CLI_LOG_ERROR (ErrUnknownLong "--") (test_world 0))
  ∧ (parse test_atoi test_atof ["testExe"; "-D"; "--"; "File1"]
       test_types (test_world 0)).1.1 = false.
Proof.
  destruct (double_dash_is_unknown_option test_atoi test_atof test_types)
    as (_ & Hstep & Hparse).
  - repeat constructor; discriminate.
  - split; [apply Hstep|]. apply Hparse. vm_compute.
    apply list_elem_of_further, list_elem_of_here.
Defined.

(** * Further properties of the code *)

(** ** isNumeric on Float options *)

Lemma is_point_eq c : is_point c = true ↔ c = "."%char.
Proof.
  split; [|by intros ->].
  destruct c as [[] [] [] [] [] [] [] []]; simpl; first [discriminate | done].
Qed.

Lemma count_char_other c c' s :
  c' ≠ c → count_char c (String c' s) = count_char c s.
Proof. intros Hne. simpl. by rewrite bool_decide_eq_false_2. Qed.

Lemma count_char_same c s : count_char c (String c s) = S (count_char c s).
Proof. simpl. by rewrite bool_decide_eq_true_2. Qed.

Lemma isNumeric_from_float_tail i s (fd : bool) :
  isNumeric_from (S i) s true false fd
  = all_chars (λ c, is_digit c || is_point c) s
    && (count_char "." s + (if fd then 1 else 0) <=? 1)%nat.
Proof.
  revert i fd. induction s as [|c s IH]; intros i fd.
  { by destruct fd. }
  destruct (decide (c = "."%char)) as [->|Hc].
  - rewrite count_char_same. cbn [all_chars]. change (is_digit "." || is_point ".") with true.
    cbn [isNumeric_from andb]. destruct fd; cbn [negb andb].
    + rewrite andb_false_intro2; [done|]. apply Nat.leb_gt. lia.
    + rewrite IH. f_equal. apply eq_true_iff_eq. rewrite !Nat.leb_le. lia.
  - rewrite count_char_other by done. cbn [all_chars].
    assert (is_point c = false) as Hp.
    { apply not_true_iff_false. by rewrite is_point_eq. }
    rewrite Hp, orb_false_r. destruct (is_digit c) eqn:Hd.
    + rewrite isNumeric_from_digit by done. apply IH.
    + clear IH. destruct c as [[] [] [] [] [] [] [] []]; simpl in *; done.
Qed.

Lemma isNumeric_float_head c s :
  isNumeric (String c s) true
  = (is_digit c || is_sign c || is_point c)
    && (all_chars (λ c, is_digit c || is_point c) s
        && (count_char "." (String c s) <=? 1)%nat).
Proof.
  unfold isNumeric. destruct (decide (c = "."%char)) as [->|Hc].
  - rewrite count_char_same. cbn [isNumeric_from andb negb orb is_digit is_sign is_point].
    rewrite isNumeric_from_float_tail. f_equal.
    apply eq_true_iff_eq. rewrite !Nat.leb_le. lia.
  - rewrite count_char_other by done.
    assert (is_point c = false) as ->.
    { apply not_true_iff_false. by rewrite is_point_eq. }
    rewrite orb_false_r.
    pose proof (isNumeric_from_float_tail 0 s false) as Htail.
    rewrite Nat.add_0_r in Htail.
    destruct c as [[] [] [] [] [] [] [] []]; simpl in *; done.
Qed.

Lemma all_digits_no_point s :
  all_chars is_digit s = true →
  all_chars (λ c, is_digit c || is_point c) s = true ∧ count_char "." s = 0%nat.
Proof.
  induction s as [|c s IH]; [done|]. simpl.
  intros [Hd Hs]%andb_true_iff. destruct (IH Hs) as [-> ->].
  rewrite Hd. split; [done|]. rewrite bool_decide_eq_false_2; [done|].
  intros ->. done.
Qed.

(** X1: what [isNumeric(str, true)] accepts is exactly an optional leading
    sign followed by digits and at most one decimal point, in any position:
    no digit is asked for and no exponent is accepted. *)
Theorem isNumeric_float_literal (s : string) :
  isNumeric s true = true ↔ float_literal_scanned s.
Proof.
  destruct s as [|c s].
  { split; [|done]. intros _. exists "", "". split_and!; auto. }
  rewrite isNumeric_float_head, !andb_true_iff, !orb_true_iff, Nat.leb_le. split.
  - intros [[[Hd|Hs]|Hp] [Hall Hcount]].
    + exists "", (String c s). simpl. rewrite Hd, Hall. auto.
    + exists (String c ""), s.
      apply is_sign_cases in Hs as [->| ->];
        rewrite count_char_other in Hcount by done; auto.
    + exists "", (String c s). simpl in *. rewrite Hp, Hall, orb_true_r. auto.
  - intros (sign & body & Heq & Hsign & Hall & Hcount).
    destruct Hsign as [->|[->| ->]]; cbv [String.append] in Heq.
    + subst body. simpl in Hall. apply andb_true_iff in Hall as [Hc ->].
      apply orb_true_iff in Hc as [->| ->]; rewrite ?orb_true_r; auto.
    + injection Heq as -> ->. rewrite count_char_other by done. auto.
    + injection Heq as -> ->. rewrite count_char_other by done. auto.
Qed.

(** X2: every string [isNumeric] accepts for an Int option it accepts for a
    Float option. *)
Theorem isNumeric_int_then_float (s : string) :
  isNumeric s false = true → isNumeric s true = true.
Proof.
  destruct s as [|c s]; [done|].
  rewrite isNumeric_int_head, isNumeric_float_head, !andb_true_iff, Nat.leb_le.
  intros [Hc Hs]. destruct (all_digits_no_point _ Hs) as [-> Hcount].
  split_and!; [by rewrite Hc|done|].
  destruct (decide (c = "."%char)) as [->|Hne]; [done|].
  rewrite count_char_other by done. lia.
Qed.

Lemma isNumeric_int_then_float_test : isNumeric "-23" true = true.
Proof. apply isNumeric_int_then_float. reflexivity. Defined.

(** ** Invariants of the scan *)

Lemma insert_middle {A} (pre : list A) x y rest :
  <[length pre := x]> (pre ++ y :: rest)%list = (pre ++ x :: rest)%list.
Proof. induction pre as [|z pre IH]; simpl; [done|]. by rewrite IH. Qed.

(** A property of the options and of the world that every application of
    an option and every diagnostic keeps holds after the loops.  The flag
    of [I] tells whether the run is still free of errors, so that [I] may
    ask less once an error has been returned. *)
Section Rule.

Context {float : Type}.
Variable atoi : string → Z.
Variable atof : string → float.
Variable I : bool → list Option → World float → Prop.

Hypothesis Happly : ∀ opts k o argv w r o' w',
  opts !! k = Some o → ApplyOutcome atoi atof o argv w r o' w' →
  I true opts w → I (bool_decide (0 ≤ r)) (<[k := o']> opts) w'.
Hypothesis Herr : ∀ opts w d,
  I true opts w → I false opts (CLI_LOG_ERROR d w).

Lemma ShortRun_rule c lastChar argv opts handled w opts' handled' w' ret :
  ShortRun atoi atof c lastChar argv opts handled w opts' handled' w' ret →
  ∀ pre, I true (pre ++ opts)%list w → I (went_on ret) (pre ++ opts')%list w'.
Proof using Happly Herr.
  induction 1 as [|opt rest ?? rest' ??? Hne ? IH
                  |opt rest ?? Hc Hreq Hlast
                  |opt rest ?? result opt' ? Hc Hmid Happ Hnz
                  |opt rest ?? opt' ? rest' ??? Hc ? Happ ? IH]; intros pre HI.
  - done.
  - rewrite (cons_middle opt pre rest), (cons_middle opt pre rest'), !app_assoc in *.
    by apply IH.
  - by apply Herr.
  - rewrite <- (insert_middle pre opt' opt rest).
    eapply Happly; [|done..]. by apply list_lookup_middle.
  - rewrite (cons_middle opt' pre rest'), app_assoc. apply IH.
    rewrite <- app_assoc. simpl. rewrite <- (insert_middle pre opt' opt rest).
    eapply (Happly _ _ _ _ _ 0); [|done..]. by apply list_lookup_middle.
Qed.

Lemma clusterLoop_rule chars argv opts w r opts' w' :
  clusterLoop atoi atof chars argv opts w = (r, opts', w') →
  I true opts w → I (bool_decide (0 ≤ r)) opts' w'.
Proof using Happly Herr.
  revert opts w. induction chars as [|c chars' IH]; intros opts w Hloop HI;
    simpl in Hloop.
  { by injection Hloop as <- <- <-. }
  destruct (shortOptionLoop atoi atof c (bool_decide (chars' = "")) argv opts false w)
    as [[[opts1 handled1] w1] ret] eqn:Hshort.
  apply shortOptionLoop_run in Hshort.
  pose proof (ShortRun_rule _ _ _ _ _ _ _ _ _ _ Hshort [] HI) as HI1.
  destruct ret as [r0|]; simpl in *.
  - by injection Hloop as <- <- <-.
  - destruct handled1; simpl in Hloop; [by eapply IH|].
    injection Hloop as <- <- <-. by apply Herr.
Qed.

Lemma handleOption_rule arg more p w r p' w' :
  handleOption atoi atof arg more p w = (r, p', w') →
  I true (options p) w → I (bool_decide (0 ≤ r)) (options p') w'.
Proof using Happly Herr.
  intros Hstep HI.
  destruct (token_shape atoi atof arg) as [(c1 & name & ->)|(_ & _ & _ & Hpush)].
  2:{ rewrite Hpush in Hstep. by injection Hstep as <- <- <-. }
  rewrite handleOption_option_token in Hstep. cbv zeta in Hstep.
  destruct (Ascii.eqb c1 "-"); cbn [negb] in Hstep.
  - destruct (longOptionLoop atoi atof name _ (options p) w)
      as [[[r0 opts1] w1]|] eqn:Hlong.
    + injection Hstep as <- <- <-.
      destruct (longOptionLoop_matched _ _ _ _ _ _ _ _ _ Hlong)
        as (k & o & o' & Hk & _ & _ & _ & -> & Happ).
      by eapply Happly.
    + injection Hstep as <- <- <-. by apply Herr.
  - destruct (clusterLoop atoi atof (String c1 name)
                (String "-" (String c1 name) :: more) (options p) w)
      as [[r0 opts1] w1] eqn:Hcluster.
    injection Hstep as <- <- <-. by eapply clusterLoop_rule.
Qed.

Lemma parseLoop_rule toks skip p w ok p' w' :
  parseLoop atoi atof skip toks p w = (ok, p', w') →
  I true (options p) w → I ok (options p') w'.
Proof using Happly Herr.
  revert skip p w. induction toks as [|tok toks IH]; intros skip p w Hloop HI.
  { by destruct skip; injection Hloop as <- <- <-. }
  destruct skip as [|skip]; [|by eapply IH].
  simpl in Hloop.
  destruct (handleOption atoi atof tok toks p w) as [[r p1] w1] eqn:Hstep.
  pose proof (handleOption_rule _ _ _ _ _ _ _ Hstep HI) as HI1.
  destruct (r <? 0) eqn:Hr.
  - injection Hloop as <- <- <-. apply Z.ltb_lt in Hr.
    by rewrite bool_decide_eq_false_2 in HI1 by lia.
  - apply Z.ltb_ge in Hr. rewrite bool_decide_eq_true_2 in HI1 by done.
    by eapply IH.
Qed.

Lemma parse_rule argv p w ok p' w' :
  parse atoi atof argv p w = (ok, p', w') →
  I true (options p) w → I ok (options p') w'.
Proof using Happly Herr.
  rewrite parse_unfold.
  destruct (parseLoop atoi atof 0 (tail argv) _ w) as [[scanned p1] w1] eqn:Hloop.
  intros Hparse HI. apply parseLoop_rule in Hloop; [|done].
  destruct scanned; simpl in Hparse; [|by injection Hparse as <- <- <-].
  destruct (requiredLoop_log (options p1) w1) as [Hreq|(c & l & Hreq)];
    rewrite Hreq in Hparse; injection Hparse as <- <- <-; [done|by apply Herr].
Qed.

End Rule.

Section Invariants.

Context {float : Type}.
Variable atoi : string → Z.
Variable atof : string → float.

Implicit Types (opt o : Option) (opts : list Option) (argv more toks : list string).
Implicit Types (w : World float) (p : Parser) (m : Memory float).

Lemma ApplyOutcome_writes opt argv w r opt' w' :
  ApplyOutcome atoi atof opt argv w r opt' w' →
  writes_only_bound [opt] (heap w) (heap w').
Proof.
  intros Happ.
  assert (Hhere : opt ∈ [opt]) by apply list_elem_of_here.
  destruct Happ; split_and!; intros a Hfree; simpl; try done;
    apply fn_lookup_insert_ne; intros <-; apply (Hfree opt Hhere);
    by repeat split; auto.
Qed.

Lemma ApplyOutcome_never_reset opt argv w r opt' w' :
  ApplyOutcome atoi atof opt argv w r opt' w' → never_reset (heap w) (heap w').
Proof.
  intros Happ. destruct Happ; split; intros a Ha; try done; simpl.
  - destruct (decide (valuePointer opt = a)) as [<-|Hne];
      [by rewrite fn_lookup_insert|by rewrite fn_lookup_insert_ne].
  - destruct (decide (valuePointer opt = a)) as [<-|Hne];
      [by rewrite fn_lookup_insert|by rewrite fn_lookup_insert_ne].
Qed.

Lemma advanced_decl o o' : advanced o o' → decl o = decl o'.
Proof. by intros [->| ->]. Qed.

Lemma advanced_trans o1 o2 o3 : advanced o1 o2 → advanced o2 o3 → advanced o1 o3.
Proof. intros [->| ->] [->| ->]; unfold advanced; auto. Qed.

Lemma bound_at_decl o o' a :
  decl o = decl o' →
  (bool_bound_at a o' → bool_bound_at a o)
  ∧ (int_bound_at a o' → int_bound_at a o)
  ∧ (float_bound_at a o' → float_bound_at a o)
  ∧ (str_bound_at a o' → str_bound_at a o).
Proof.
  intros (Ht & _ & _ & Hv & _)%decl_fields.
  unfold bool_bound_at, int_bound_at, float_bound_at, str_bound_at, takes_string.
  by rewrite Ht, Hv.
Qed.

(** X3: a parse leaves the declared options in place and in order, changes
    nothing of an option but [isSet], and never clears [isSet]; it records
    [argv[0]] as the executable name. *)
Theorem parse_advances_options argv p w :
  Forall2 advanced (options p) (options (parse atoi atof argv p w).1.2)
  ∧ executableName (parse atoi atof argv p w).1.2 = argv !! 0%nat.
Proof.
  destruct (parse atoi atof argv p w) as [[ok p'] w'] eqn:Hparse. simpl. split.
  - refine (parse_rule atoi atof (λ _ opts _, Forall2 advanced (options p) opts)
              _ _ _ _ _ _ _ _ Hparse _).
    + intros opts k o argv' w0 r o' w0' Hk Happ HF.
      destruct (Forall2_lookup_r _ _ _ _ _ HF Hk) as (o0 & Hk0 & Hadv).
      rewrite <- (list_insert_id (options p) k o0) by done.
      apply Forall2_insert; [done|]. apply (advanced_trans _ _ _ Hadv).
      by destruct (ApplyOutcome_option _ _ _ _ _ _ _ _ Happ) as [_ [->| ->]];
        [left|right].
    + done.
    + apply Forall_Forall2_diag, Forall_lookup_2. by left.
  - rewrite parse_unfold in Hparse.
    destruct (parseLoop atoi atof 0 (tail argv) _ w) as [[scanned p1] w1] eqn:Hloop.
    destruct (parseLoop_general _ _ _ _ _ _ _ _ _ Hloop) as (_ & Hexe & _).
    destruct scanned; simpl in Hparse.
    + destruct (requiredLoop (options p1) w1). by injection Hparse as <- <- <-.
    + by injection Hparse as <- <- <-.
Qed.

(** X4: a parse that succeeds reports nothing, and a parse that fails
    reports exactly one diagnostic. *)
Theorem parse_reports_once argv p w :
  let '(ok, _, w') := parse atoi atof argv p w in
  if ok then stderr w' = stderr w
  else ∃ d, stderr w' = (stderr w ++ [d])%list.
Proof.
  rewrite parse_unfold.
  destruct (parseLoop atoi atof 0 (tail argv) _ w) as [[scanned p1] w1] eqn:Hloop.
  destruct (parseLoop_general _ _ _ _ _ _ _ _ _ Hloop) as (_ & _ & l & _ & _ & Hb).
  destruct scanned; simpl.
  - destruct Hb as [<- _].
    by destruct (requiredLoop_log (options p1) w1) as [->|(c & l' & ->)]; simpl; eauto.
  - destruct Hb as (d & -> & _). eauto.
Qed.

(** X5: a parse writes to no variable of the caller but those a declared
    option of the matching kind is bound to. *)
Theorem parse_writes_only_bound argv p w :
  writes_only_bound (options p) (heap w) (heap (parse atoi atof argv p w).2).
Proof.
  destruct (parse atoi atof argv p w) as [[ok p'] w'] eqn:Hparse. simpl.
  refine (proj2 (parse_rule atoi atof
            (λ _ opts w1, same_decls (options p) opts
                          ∧ writes_only_bound (options p) (heap w) (heap w1))
            _ _ _ _ _ _ _ _ Hparse _)).
  - intros opts k o argv' w0 r o' w0' Hk Happ [Hsame Hw]. split.
    { eapply same_decls_trans; [done|].
      eapply same_decls_insert; [done|]. by eapply ApplyOutcome_decl. }
    destruct (Forall2_lookup_r _ _ _ _ _ Hsame Hk) as (o0 & Hk0 & Hd).
    apply list_elem_of_lookup_2 in Hk0.
    destruct Hw as (Hb & Hi & Hf & Hs).
    destruct (ApplyOutcome_writes _ _ _ _ _ _ Happ) as (Hb' & Hi' & Hf' & Hs').
    split_and!; intros a Hfree.
    + rewrite Hb', Hb; [done..|]. intros x ->%list_elem_of_singleton Hx.
      by apply (Hfree o0 Hk0), (bound_at_decl _ _ a Hd).
    + rewrite Hi', Hi; [done..|]. intros x ->%list_elem_of_singleton Hx.
      by apply (Hfree o0 Hk0), (bound_at_decl _ _ a Hd).
    + rewrite Hf', Hf; [done..|]. intros x ->%list_elem_of_singleton Hx.
      by apply (Hfree o0 Hk0), (bound_at_decl _ _ a Hd).
    + rewrite Hs', Hs; [done..|]. intros x ->%list_elem_of_singleton Hx.
      by apply (Hfree o0 Hk0), (bound_at_decl _ _ a Hd).
  - by intros opts w0 d.
  - split; [apply same_decls_refl|]. by split_and!.
Qed.

(** X6: a parse never turns a [bool] of the caller from true to false and
    never replaces a string by the null pointer. *)
Theorem parse_never_resets argv p w :
  never_reset (heap w) (heap (parse atoi atof argv p w).2).
Proof.
  destruct (parse atoi atof argv p w) as [[ok p'] w'] eqn:Hparse. simpl.
  refine (parse_rule atoi atof (λ _ _ w1, never_reset (heap w) (heap w1))
            _ _ _ _ _ _ _ _ Hparse _).
  - intros opts k o argv' w0 r o' w0' Hk Happ [Hb Hs].
    destruct (ApplyOutcome_never_reset _ _ _ _ _ _ Happ) as [Hb' Hs'].
    split; intros a Ha; auto.
  - by intros opts w0 d.
  - by split.
Qed.

Lemma set_strings_bound_applied opts k o argv w r o' w' :
  opts !! k = Some o → ApplyOutcome atoi atof o argv w r o' w' →
  set_strings_bound opts (heap w) →
  if bool_decide (0 ≤ r) then set_strings_bound (<[k := o']> opts) (heap w')
  else True.
Proof.
  intros Hk Happ Hbound. case_bool_decide as Hr; [|done].
  destruct (ApplyOutcome_never_reset _ _ _ _ _ _ Happ) as [_ Hkeep].
  intros x [j Hj]%list_elem_of_lookup_1 Hx Hset.
  apply list_lookup_insert_Some in Hj as [(-> & <- & _)|[Hne Hj]].
  - destruct (ApplyOutcome_result _ _ _ _ _ _ _ _ Happ) as [->|[->| ->]]; [lia| |].
    + destruct (ApplyOutcome_flag _ _ _ _ _ _ _ _ Happ eq_refl) as (Hno & _ & -> & _).
      rewrite requiresParameter_type in Hno. unfold takes_string in Hx. cbn in Hx.
      by destruct Hx as [Hx|[Hx|Hx]]; rewrite Hx in Hno.
    + destruct (ApplyOutcome_parameter _ _ _ _ _ _ _ _ Happ)
        as (_ & _ & _ & -> & _ & s & _ & Hs); [lia|].
      unfold bound_parameter in Hs. unfold takes_string in Hx. cbn in Hx |- *.
      by destruct Hx as [Hx|[Hx|Hx]]; rewrite Hx in Hs; rewrite Hs.
  - apply Hkeep, Hbound; [by eapply list_elem_of_lookup_2|done..].
Qed.

(** X7: after a successful parse every String, Path or PathExisting option
    that is set has a string in its variable, never the null pointer,
    provided this held before (as it does when no option is set). *)
Theorem parse_set_strings_bound argv p w p' w' :
  parse atoi atof argv p w = (true, p', w') →
  set_strings_bound (options p) (heap w) →
  set_strings_bound (options p') (heap w').
Proof.
  intros Hparse Hbound.
  refine (parse_rule atoi atof
            (λ (b : bool) opts w1, if b then set_strings_bound opts (heap w1) else True)
            _ _ _ _ _ _ _ _ Hparse Hbound).
  - intros opts k o argv' w0 r o' w0' Hk Happ HI.
    by eapply set_strings_bound_applied.
  - done.
Qed.

End Invariants.

(** ** Tokens the scan rejects *)

Section Rejected.

Context {float : Type}.
Variable atoi : string → Z.
Variable atof : string → float.

Implicit Types (opt o : Option) (opts : list Option) (argv more toks : list string).
Implicit Types (w : World float) (p : Parser).

Lemma parse_rejects tok p :
  (∀ more p1 w, same_decls (options p) (options p1) →
     (handleOption atoi atof tok more p1 w).1.1 = -1) →
  ∀ argv w,
    tok ∈ classified (options p) 0 (tail argv) →
    (parse atoi atof argv p w).1.1 = false.
Proof.
  intros Hstep argv w Hin. rewrite parse_unfold.
  assert ((parseLoop atoi atof 0 (tail argv)
             (mkParser (options p) (remaining p) (argv !! 0%nat)) w).1.1 = false)
    as Hrej.
  { apply (parseLoop_rejects atoi atof (λ t, t = tok) (options p));
      [|apply same_decls_refl|by exists tok].
    intros t more p1 w1 -> Hsame. rewrite Hstep; [lia|done]. }
  destruct (parseLoop atoi atof 0 (tail argv) _ w) as [[scanned p1] w1].
  simpl in Hrej. by subst scanned.
Qed.

Lemma clusterLoop_unknown_short pre c post argv opts w :
  (∀ o, o ∈ opts → shortName o ≠ c) →
  (clusterLoop atoi atof (pre +:+ String c post) argv opts w).1.1 = -1.
Proof.
  revert opts w. induction pre as [|ch pre IH]; intros opts w Hnone;
    cbv [String.append]; fold String.append; simpl.
  - by rewrite shortOptionLoop_unmatched.
  - rewrite bool_decide_eq_false_2 by apply append_String_nonempty.
    destruct (shortOptionLoop atoi atof ch false argv opts false w)
      as [[[opts1 handled1] w1] ret] eqn:Hshort.
    pose proof (shortOptionLoop_run _ _ _ _ _ _ _ _ _ _ _ _ Hshort) as Hrun.
    destruct ret as [r0|].
    + by destruct (ShortRun_returned _ _ _ _ _ _ _ _ _ _ _ _ r0 Hrun eq_refl)
        as [[-> _]|(_ & _ & ? & _)].
    + destruct handled1; simpl; [|done]. apply IH.
      intros o1 [j Hj]%list_elem_of_lookup_1.
      destruct (same_decls_lookup _ _ _ _
                  (ShortRun_same_decls _ _ _ _ _ _ _ _ _ _ _ _ Hrun) Hj)
        as (o0 & Hj0 & Hd).
      destruct (decl_fields _ _ Hd) as (_ & <- & _).
      apply Hnone. by eapply list_elem_of_lookup_2.
Qed.

(** X8: a cluster with a character that is the short name of no declared
    option makes [handleOption] fail, wherever the character stands, and
    with it every parse whose scan classifies the token. *)
Theorem unknown_short_option_fails p pre c post :
  (∀ o, o ∈ options p → shortName o ≠ c) →
  String.prefix "-" (pre +:+ String c post) = false →
  (∀ more w,
     (handleOption atoi atof (String "-" (pre +:+ String c post)) more p w).1.1 = -1)
  ∧ (∀ argv w,
       String "-" (pre +:+ String c post) ∈ classified (options p) 0 (tail argv) →
       (parse atoi atof argv p w).1.1 = false).
Proof.
  intros Hnone Hhead.
  destruct (append_String_head _ _ _ Hhead) as (c1 & name & Hcluster & Hc1).
  assert (Hstep : ∀ more p1 w, same_decls (options p) (options p1) →
            (handleOption atoi atof (String "-" (pre +:+ String c post))
               more p1 w).1.1 = -1).
  { intros more p1 w Hsame.
    pose proof (clusterLoop_unknown_short pre c post
                  (String "-" (pre +:+ String c post) :: more) (options p1) w) as Hloop.
    rewrite Hcluster in *. rewrite handleOption_option_token. cbv zeta.
    rewrite Hc1. cbn [negb].
    destruct (clusterLoop atoi atof (String c1 name) _ (options p1) w)
      as [[r0 opts1] w1]. apply Hloop.
    intros o1 [j Hj]%list_elem_of_lookup_1.
    destruct (same_decls_lookup _ _ _ _ Hsame Hj) as (o0 & Hj0 & Hd).
    destruct (decl_fields _ _ Hd) as (_ & <- & _).
    apply Hnone. by eapply list_elem_of_lookup_2. }
  split; [intros more w; apply Hstep, same_decls_refl|by apply parse_rejects].
Qed.

(** X9: a token [--name] whose name is the long name of no declared option
    is reported as an unknown option; [handleOption] leaves the parser and
    the caller's variables as they were, and every parse whose scan
    classifies the token fails. *)
Theorem unknown_long_option_fails p name :
  (∀ o, o ∈ options p → longName o ≠ name) →
  (∀ more w,
     handleOption atoi atof (String "-" (String "-" name)) more p w
     = (-1, p, CLI_LOG_ERROR (ErrUnknownLong (String "-" (String "-" name))) w))
  ∧ (∀ argv w,
       String "-" (String "-" name) ∈ classified (options p) 0 (tail argv) →
       (parse atoi atof argv p w).1.1 = false).
Proof.
  intros Hnone.
  assert (Hstep : ∀ more p1 w, same_decls (options p) (options p1) →
            handleOption atoi atof (String "-" (String "-" name)) more p1 w
            = (-1, p1, CLI_LOG_ERROR (ErrUnknownLong (String "-" (String "-" name))) w)).
  { intros more p1 w Hsame. rewrite handleOption_option_token. cbv zeta.
    rewrite Ascii.eqb_refl. cbn [negb].
    rewrite longOptionLoop_none; [done|].
    apply Forall_lookup_2. intros j o1 Hj.
    destruct (same_decls_lookup _ _ _ _ Hsame Hj) as (o0 & Hj0 & Hd).
    destruct (decl_fields _ _ Hd) as (_ & _ & <- & _).
    apply Hnone. by eapply list_elem_of_lookup_2. }
  split; [intros more w; apply Hstep, same_decls_refl|].
  apply parse_rejects. intros more p1 w Hsame. by rewrite Hstep.
Qed.

Lemma parseLoop_dangling opts0 toks skip p w :
  same_decls opts0 (options p) →
  dangling opts0 skip toks = true →
  (parseLoop atoi atof skip toks p w).1.1 = false.
Proof.
  revert skip p w. induction toks as [|tok toks IH]; intros skip p w Hsame Hd;
    [done|].
  destruct skip as [|skip]; simpl in *; [|by apply IH].
  destruct (handleOption atoi atof tok toks p w) as [[r p1] w1] eqn:Hstep.
  destruct (r <? 0) eqn:Hr; [done|]. apply Z.ltb_ge in Hr.
  destruct (handleOption_general _ _ _ _ _ _ _ _ _ Hstep) as (Hsame1 & _ & _ & _ & Hres).
  destruct Hres as [(-> & _)|(_ & -> & Hnext)]; [lia|].
  rewrite <- (takes_parameter_same_decls _ _ _ Hsame) in *.
  destruct (takes_parameter opts0 tok).
  - destruct toks as [|next toks]; [by destruct (Hnext eq_refl)|].
    apply IH; [by eapply same_decls_trans|done].
  - apply IH; [by eapply same_decls_trans|done].
Qed.

(** X10: an option that takes a parameter cannot be the last token: when
    the scan reaches such a token with nothing after it, the parse fails. *)
Theorem dangling_parameter_option_fails argv p w :
  dangling (options p) 0 (tail argv) = true →
  (parse atoi atof argv p w).1.1 = false.
Proof.
  intros Hd. rewrite parse_unfold.
  pose proof (parseLoop_dangling (options p) (tail argv) 0
                (mkParser (options p) (remaining p) (argv !! 0%nat)) w
                (same_decls_refl _) Hd) as Hloop.
  destruct (parseLoop atoi atof 0 (tail argv) _ w) as [[scanned p1] w1].
  simpl in Hloop. by subst scanned.
Qed.

End Rejected.

(** ** What a parse does to the parser *)

Section Parses.

Context {float : Type}.
Variable atoi : string → Z.
Variable atof : string → float.

Implicit Types (opt o : Option) (opts : list Option) (argv more toks : list string).
Implicit Types (w : World float) (p : Parser).

Lemma requiredLoop_result opts w :
  (requiredLoop opts w).1 = forallb (λ o, negb (missing o)) opts.
Proof.
  induction opts as [|o opts IH]; simpl; [done|].
  unfold missing at 1. by destruct (isRequired o && negb (isSet o)).
Qed.

Lemma parseLoop_positional toks p w :
  Forall (λ tok, is_positional tok = true) toks →
  parseLoop atoi atof 0 toks p w
  = (true, mkParser (options p) (remaining p ++ toks) (executableName p), w).
Proof.
  intros Hpos. revert p. induction Hpos as [|tok toks Htok _ IH]; intros p.
  { simpl. rewrite app_nil_r. by destruct p. }
  destruct (token_shape atoi atof tok) as [(c1 & name & ->)|(_ & _ & _ & Hpush)];
    [by rewrite token_is_option in Htok|].
  cbn [parseLoop]. rewrite Hpush. simpl. rewrite IH. simpl.
  by rewrite <- app_assoc.
Qed.

(** X11: on a command line of positional tokens only (none at all
    included), [parse] appends them all to the remaining arguments, leaves
    the options and the caller's variables as they are, and succeeds exactly
    when no option is required and not set. *)
Theorem parse_positional_only argv p w :
  Forall (λ tok, is_positional tok = true) (tail argv) →
  let '(ok, p', w') := parse atoi atof argv p w in
  ok = forallb (λ o, negb (missing o)) (options p)
  ∧ options p' = options p
  ∧ getRemainingArgs p' = (getRemainingArgs p ++ tail argv)%list
  ∧ heap w' = heap w.
Proof.
  intros Hpos. rewrite parse_unfold, parseLoop_positional by done. simpl.
  pose proof (requiredLoop_result (options p) w) as Hok.
  pose proof (requiredLoop_heap (options p) w) as Hheap.
  by destruct (requiredLoop (options p) w) as [ok w'].
Qed.

Lemma longOptionLoop_first k o argv opts w :
  opts !! k = Some o →
  (∀ j oj, opts !! j = Some oj → (j < k)%nat → longName oj ≠ longName o) →
  longOptionLoop atoi atof (longName o) argv opts w
  = Some (let '(r, o', w') := applyOption atoi atof o argv w in
          (r, <[k := o']> opts, w')).
Proof.
  revert k. induction opts as [|x rest IH]; intros k Hk Hfirst; [done|].
  destruct k as [|k]; simpl in Hk.
  - injection Hk as ->. simpl. rewrite bool_decide_eq_true_2 by done.
    by destruct (applyOption atoi atof o argv w) as [[r o'] w'].
  - simpl. rewrite bool_decide_eq_false_2.
    2:{ intros Heq. apply (Hfirst 0%nat x); [done|lia|done]. }
    rewrite (IH k Hk); [|intros j oj Hj Hlt; apply (Hfirst (S j) oj); [done|lia]].
    by destruct (applyOption atoi atof o argv w) as [[r o'] w'].
Qed.

Lemma applyOption_string o tok next more w :
  takes_string o → isSet o = false →
  applyOption atoi atof o (tok :: next :: more) w
  = (1, set_isSet true o, store_str (valuePointer o) (Some next) w).
Proof.
  intros Hty Hset. unfold applyOption. rewrite Hset, andb_false_r.
  rewrite requiresParameter_type.
  replace (Z.of_nat (length (tok :: next :: more)) <? 2) with false
    by (symmetry; apply Z.ltb_ge; simpl; lia).
  rewrite andb_false_r. simpl.
  by destruct Hty as [->|[->| ->]].
Qed.

(** X12: a long option of kind String, Path or PathExisting that is not set
    takes the next token as it is, whatever it looks like (a token that
    starts with [-] included): the call returns 1, sets the option, binds
    the token and the scan resumes after it.  The option is the first
    declared under that long name. *)
Theorem long_string_option_takes_next_token k o next more p w :
  options p !! k = Some o →
  (∀ j oj, options p !! j = Some oj → (j < k)%nat → longName oj ≠ longName o) →
  takes_string o → isSet o = false →
  let p' := set_options (<[k := set_isSet true o]> (options p)) p in
  let w' := store_str (valuePointer o) (Some next) w in
  handleOption atoi atof (String "-" (String "-" (longName o))) (next :: more) p w
  = (1, p', w')
  ∧ parseLoop atoi atof 0
      (String "-" (String "-" (longName o)) :: next :: more) p w
    = parseLoop atoi atof 0 more p' w'.
Proof.
  intros Hk Hfirst Hty Hset p' w'.
  assert (handleOption atoi atof (String "-" (String "-" (longName o)))
            (next :: more) p w = (1, p', w')) as Hstep.
  { rewrite handleOption_option_token. cbv zeta. rewrite Ascii.eqb_refl. cbn [negb].
    rewrite (longOptionLoop_first k o) by done.
    by rewrite applyOption_string. }
  split; [done|]. cbn [parseLoop]. by rewrite Hstep.
Qed.

(** X13: after a successful parse, an option declared under names of its
    own is as it was when no token invoked it, and is set when some token
    did: [isSet] tells whether the option was given. *)
Theorem option_set_iff_invoked k o argv p w p' w' :
  names_unique_at k o (options p) →
  parse atoi atof argv p w = (true, p', w') →
  options p' !! k
  = Some (match invocations o (options p) (tail argv) with
          | O => o
          | S _ => set_isSet true o
          end).
Proof.
  intros Hu Hparse. rewrite parse_unfold in Hparse.
  destruct (parseLoop atoi atof 0 (tail argv) _ w) as [[[] p1] w1] eqn:Hloop;
    [|done]. simpl in Hparse.
  destruct (requiredLoop (options p1) w1) as [ok w2]. injection Hparse as -> -> ->.
  apply (parseLoop_effect atoi atof k _ _ o) in Hloop; [|done].
  by destruct Hloop as (Hk & _).
Qed.

Lemma requiredLoop_missing opts o w :
  o ∈ opts → missing o = true → (requiredLoop opts w).1 = false.
Proof.
  intros Hin Hmiss. rewrite requiredLoop_result.
  apply not_true_iff_false. intros Hall.
  rewrite forallb_forall in Hall. apply list_elem_of_In in Hin.
  specialize (Hall o Hin). by rewrite Hmiss in Hall.
Qed.

(** X14: a required option that is not set and that no token invokes makes
    the parse fail. *)
Theorem required_option_not_given_fails k o argv p w :
  names_unique_at k o (options p) →
  isRequired o = true → isSet o = false →
  invocations o (options p) (tail argv) = 0%nat →
  (parse atoi atof argv p w).1.1 = false.
Proof.
  intros Hu Hreq Hset Hnone. rewrite parse_unfold.
  destruct (parseLoop atoi atof 0 (tail argv) _ w) as [[[] p1] w1] eqn:Hloop;
    [|done]. simpl.
  apply (parseLoop_effect atoi atof k _ _ o) in Hloop; [|done].
  destruct Hloop as (Hk & _). unfold invocations in Hnone. cbn [options] in Hk.
  rewrite Hnone in Hk.
  pose proof (requiredLoop_missing (options p1) o w1
                (list_elem_of_lookup_2 _ _ _ Hk)) as Hmiss.
  destruct (requiredLoop (options p1) w1) as [ok w2]. simpl in *.
  apply Hmiss. unfold missing. by rewrite Hreq, Hset.
Qed.

(** X15: a parser is good for one parse: once a successful parse has
    invoked an option that is not a FlagCount, any further parse on the same
    parser that invokes the option again fails. *)
Theorem second_parse_fails k o argv1 argv2 p w p1 w1 w2 :
  names_unique_at k o (options p) →
  type o ≠ OptionType.FlagCount →
  parse atoi atof argv1 p w = (true, p1, w1) →
  (1 ≤ invocations o (options p) (tail argv1))%nat →
  (1 ≤ invocations o (options p) (tail argv2))%nat →
  (parse atoi atof argv2 p1 w2).1.1 = false.
Proof.
  intros Hu Ht Hparse Hfirst Hsecond. rewrite parse_unfold in Hparse.
  destruct (parseLoop atoi atof 0 (tail argv1) _ w) as [[[] q] v] eqn:Hloop;
    [|done]. simpl in Hparse.
  destruct (parseLoop_general _ _ _ _ _ _ _ _ _ Hloop) as (Hsame & _).
  destruct (requiredLoop (options q) v) as [ok v']. injection Hparse as -> -> ->.
  apply (parseLoop_effect atoi atof k _ _ o) in Hloop; [|done].
  destruct Hloop as (Hk & _). cbn [options] in Hk, Hsame.
  unfold invocations in *.
  destruct (sum_list (uses o <$> classified (options p) 0 (tail argv1)))
    as [|n1]; [lia|].
  destruct (names_unique_at_same_decls _ _ _ _ _ Hu Hsame Hk) as [Hd Hu1].
  rewrite parse_unfold.
  destruct (parseLoop atoi atof 0 (tail argv2) _ w2) as [[[] p2] v2] eqn:Hloop2;
    [|done].
  apply (parseLoop_effect atoi atof k _ _ (set_isSet true o)) in Hloop2; [|done].
  destruct Hloop2 as (_ & Hone & _). simpl in Hone.
  rewrite <- (classified_same_decls _ _ _ _ Hsame) in Hone.
  destruct (Hone Ht) as [_ Hfalse]; [|done].
  rewrite (list_fmap_ext (uses (set_isSet true o)) (uses o)); [lia|].
  intros. by apply uses_decl.
Qed.

End Parses.

(** ** The usage text *)

Lemma count_char_app c s1 s2 :
  count_char c (s1 +:+ s2) = (count_char c s1 + count_char c s2)%nat.
Proof.
  induction s1 as [|a s1 IH]; [done|].
  change (String a s1 +:+ s2) with (String a (s1 +:+ s2)).
  simpl. rewrite IH. lia.
Qed.

Lemma usageLine_decl o o' : decl o = decl o' → usageLine o = usageLine o'.
Proof.
  intros Hd. pose proof (f_equal description Hd) as Hdesc. simpl in Hdesc.
  destruct (decl_fields _ _ Hd) as (Ht & Hs & Hl & _ & Hr).
  unfold usageLine. by rewrite (decl_requiresParameter _ _ Hd), Ht, Hs, Hl, Hr, Hdesc.
Qed.

Lemma usageLoop_same_decls opts opts' :
  same_decls opts opts' → usageLoop opts = usageLoop opts'.
Proof.
  induction 1 as [|o o' ?? Hd _ IH]; [done|].
  simpl. by rewrite IH, (usageLine_decl _ _ Hd).
Qed.

Lemma usageLine_single_line o :
  single_line o → count_char NEWLINE (usageLine o) = 1%nat.
Proof.
  intros (Hs & Hl & Hd). unfold usageLine.
  assert (count_char NEWLINE (optionTypeDisplayName (type o)) = 0%nat) as Hlabel
    by by destruct (type o).
  destruct (requiresParameter o), (isRequired o);
    rewrite !count_char_app, ?count_char_other, ?count_char_app,
      ?Hl, ?Hd, ?Hlabel by done; done.
Qed.

Section Usage.

Context {float : Type}.
Variable atoi : string → Z.
Variable atof : string → float.

Lemma parse_outcome argv p (w : World float) ok p' w' :
  parse atoi atof argv p w = (ok, p', w') →
  same_decls (options p) (options p')
  ∧ if ok then stderr w' = stderr w
    else ∃ d, stderr w' = (stderr w ++ [d])%list.
Proof.
  rewrite parse_unfold.
  destruct (parseLoop atoi atof 0 (tail argv) _ w) as [[scanned p1] w1] eqn:Hloop.
  destruct (parseLoop_general _ _ _ _ _ _ _ _ _ Hloop) as (Hsame & _ & l & _ & _ & Hb).
  destruct scanned; simpl.
  - destruct Hb as [<- _].
    destruct (requiredLoop_log (options p1) w1) as [->|(c & l' & ->)];
      intros [= <- <- <-]; eauto.
  - intros [= <- <- <-]. destruct Hb as (d & -> & _). eauto.
Qed.

(** X16: [printOptionsUsage] prints the same text after a parse as before
    it, whatever the parse did. *)
Theorem usage_unchanged_by_parse argv p (w : World float) :
  printOptionsUsage (parse atoi atof argv p w).1.2 = printOptionsUsage p.
Proof.
  destruct (parse atoi atof argv p w) as [[ok p'] w'] eqn:Hparse. simpl.
  destruct (parse_outcome _ _ _ _ _ _ Hparse) as [Hsame _].
  unfold printOptionsUsage. by rewrite (usageLoop_same_decls _ _ Hsame).
Qed.

End Usage.

(** X17: [printOptionsUsage] prints the heading and then one line for each
    declared option: when no short name is the line break and no long name
    and no description holds one, the text has one line break more than
    there are options. *)
Theorem usage_one_line_per_option p :
  Forall single_line (options p) →
  count_char NEWLINE (printOptionsUsage p) = S (length (options p)).
Proof.
  intros Hall. unfold printOptionsUsage.
  assert (count_char NEWLINE (usageLoop (options p)) = length (options p)) as Hloop.
  { induction Hall as [|o opts Ho _ IH]; [done|].
    simpl. by rewrite count_char_app, usageLine_single_line, IH. }
  rewrite count_char_app, count_char_same, Hloop. done.
Qed.

Lemma usage_one_line_per_option_test :
  count_char NEWLINE (printOptionsUsage test_types) = 7%nat.
Proof.
  apply (usage_one_line_per_option test_types).
  repeat constructor; discriminate.
Defined.

(** ** The example program *)

Lemma example_input_names_unique :
  names_unique_at 0 example_input (options example_parser).
Proof.
  split; [reflexivity|].
  intros [|[|j]] o' Hj Hne; simpl in Hj; [done| |done].
  injection Hj as <-. by split.
Qed.

Lemma example_verbose_names_unique :
  names_unique_at 1 example_verbose (options example_parser).
Proof.
  split; [reflexivity|].
  intros [|[|j]] o' Hj Hne; simpl in Hj; [|done|done].
  injection Hj as <-. by split.
Qed.

Lemma example_verbose_exclusive :
  int_target_exclusive_at 1 example_verbose (options example_parser).
Proof.
  intros [|[|j]] o' Hj Hne; simpl in Hj; [|done|done].
  injection Hj as <-. by intros [|].
Qed.

(** X18: when the example program returns 0 it has reported nothing, the
    input file was given exactly once, the file name it prints is a string,
    never the null pointer, and the verbosity it prints is the number of
    times the option [v] was given (as long as that number fits in an
    [int]). *)
Theorem example_main_success atoi argv :
  mainResult (example_main atoi argv) = 0 →
  Z.of_nat (invocations example_verbose (options example_parser) (tail argv))
    ≤ INT_MAX →
  invocations example_input (options example_parser) (tail argv) = 1%nat
  ∧ ∃ f,
      example_main atoi argv
      = mkMainRun 0
          [PrintInputFile (Some f);
           PrintVerbosity
             (Z.of_nat (invocations example_verbose (options example_parser)
                          (tail argv)))]
          [] None.
Proof.
  unfold example_main.
  destruct (parse atoi (λ _, tt) argv example_parser example_world)
    as [[ok p'] w'] eqn:Hparse.
  destruct ok; simpl; [|done]. intros _ Hfits.
  destruct (parse_outcome _ _ _ _ _ _ _ _ Hparse) as [_ Hlog].
  assert (set_strings_bound (options p') (heap w')) as Hbound.
  { refine (parse_rule atoi (λ _, tt)
              (λ (b : bool) opts w1,
                 if b then set_strings_bound opts (heap w1) else True)
              _ _ _ _ _ _ _ _ Hparse _).
    - intros opts k o argv' w0 r o' w0' Hk Happ HI.
      by eapply set_strings_bound_applied.
    - done.
    - by intros o [->|[->|[]%elem_of_nil]%elem_of_cons]%elem_of_cons. }
  rewrite parse_unfold in Hparse.
  destruct (parseLoop atoi (λ _, tt) 0 (tail argv) _ example_world)
    as [[[] p1] w1] eqn:Hloop; [|done]. simpl in Hparse.
  pose proof (requiredLoop_heap (options p1) w1) as Hheap.
  pose proof (requiredLoop_missing (options p1) example_input w1) as Hmiss.
  destruct (requiredLoop (options p1) w1) as [ok w2]. injection Hparse as -> -> ->.
  simpl in Hheap, Hmiss.
  pose proof Hloop as Hverbose.
  apply (parseLoop_effect atoi (λ _, tt) 0 _ _ example_input) in Hloop;
    [|exact example_input_names_unique].
  apply (parseLoop_effect atoi (λ _, tt) 1 _ _ example_verbose) in Hverbose;
    [|exact example_verbose_names_unique].
  destruct Hloop as (Hk0 & Hone & _). destruct Hverbose as (_ & _ & Hcount).
  cbn [options] in Hk0, Hone, Hcount.
  unfold invocations in *.
  destruct (sum_list (uses example_input <$> _)) as [|n] eqn:Hn.
  { by specialize (Hmiss (list_elem_of_lookup_2 _ _ _ Hk0) eq_refl). }
  destruct (Hone ltac:(done) ltac:(done)) as [-> _]. split; [done|].
  destruct (Hbound (set_isSet true example_input)) as [f Hf];
    [by eapply list_elem_of_lookup_2|by left|done|].
  exists f. simpl in Hf. rewrite Hf, Hheap, Hlog.
  specialize (Hcount eq_refl example_verbose_exclusive).
  rewrite iter_increment in Hcount by done.
  change (ints (heap w1) 0%nat = 0 + Z.of_nat (sum_list
            (uses example_verbose <$>
             classified (options example_parser) 0 (tail argv)))) in Hcount.
  by rewrite Hcount.
Qed.

Lemma example_main_success_test :
  ∃ f,
    example_main test_atoi ["cli_example"; "-vv"; "-i"; "in.txt"; "--verbose"]
    = mkMainRun 0 [PrintInputFile (Some f); PrintVerbosity 3] [] None.
Proof.
  destruct (example_main_success test_atoi
              ["cli_example"; "-vv"; "-i"; "in.txt"; "--verbose"])
    as [_ Hrun].
  - reflexivity.
  - vm_compute. discriminate.
  - exact Hrun.
Defined.

(** X19: when no token gives the input file, the example program returns
    -1, prints nothing with [printf], reports exactly one diagnostic and
    writes the usage of its two options, the same text whatever the
    command line was. *)
Theorem example_main_failure atoi argv :
  invocations example_input (options example_parser) (tail argv) = 0%nat →
  ∃ d,
    example_main atoi argv
    = mkMainRun (-1) [] [d]
        (Some (String NEWLINE "Usage: cli_example [-v] -i INPUT"
               +:+ String NEWLINE (String NEWLINE "")
               +:+ printOptionsUsage example_parser)).
Proof.
  intros Hnone. unfold example_main.
  destruct (parse atoi (λ _, tt) argv example_parser example_world)
    as [[ok p'] w'] eqn:Hparse.
  destruct (parse_outcome _ _ _ _ _ _ _ _ Hparse) as [Hsame Hlog].
  assert (ok = false) as ->.
  { rewrite parse_unfold in Hparse.
    destruct (parseLoop atoi (λ _, tt) 0 (tail argv) _ example_world)
      as [[[] p1] w1] eqn:Hloop; [|by injection Hparse as <- _ _].
    simpl in Hparse.
    pose proof (requiredLoop_missing (options p1) example_input w1) as Hmiss.
    destruct (requiredLoop (options p1) w1) as [ok1 w2]. injection Hparse as -> _ _.
    apply (parseLoop_effect atoi (λ _, tt) 0 _ _ example_input) in Hloop;
      [|exact example_input_names_unique].
    destruct Hloop as (Hk0 & _). cbn [options] in Hk0.
    unfold invocations in Hnone. rewrite Hnone in Hk0.
    by apply Hmiss; [eapply list_elem_of_lookup_2|]. }
  destruct Hlog as (d & Hlog). exists d. simpl. rewrite Hlog. simpl.
  unfold printOptionsUsage. by rewrite <- (usageLoop_same_decls _ _ Hsame).
Qed.

Lemma example_main_failure_test :
  mainResult (example_main test_atoi ["cli_example"; "-vv"; "file"]) = -1.
Proof.
  destruct (example_main_failure test_atoi ["cli_example"; "-vv"; "file"])
    as [d ->]; reflexivity.
Defined.

(** ** Instances on the parsers of the tests *)

Lemma test_count_string_unset (m : Memory string) :
  set_strings_bound (options test_count_string) m.
Proof. by intros o [->|[->|[]%elem_of_nil]%elem_of_cons]%elem_of_cons. Qed.

Lemma parse_set_strings_bound_test :
  set_strings_bound
    (options (parse test_atoi test_atof ["testExe"; "-S"; "fileName"]
                test_count_string (test_world 0)).1.2)
    (heap (parse test_atoi test_atof ["testExe"; "-S"; "fileName"]
             test_count_string (test_world 0)).2).
Proof.
  apply (parse_set_strings_bound test_atoi test_atof
           ["testExe"; "-S"; "fileName"] test_count_string (test_world 0)).
  - reflexivity.
  - apply test_count_string_unset.
Defined.

Lemma unknown_short_option_fails_test :
  (parse test_atoi test_atof ["testExe"; "-vxv"; "File1"]
     test_count_string (test_world 0)).1.1 = false.
Proof.
  destruct (unknown_short_option_fails test_atoi test_atof
              test_count_string "v" "x" "v") as [_ Hparse].
  - by intros o [->|[->|[]%elem_of_nil]%elem_of_cons]%elem_of_cons.
  - reflexivity.
  - apply Hparse. vm_compute. apply list_elem_of_here.
Defined.

Lemma unknown_long_option_fails_test :
  (parse test_atoi test_atof ["testExe"; "--bogus"; "File1"]
     test_count_string (test_world 0)).1.1 = false.
Proof.
  destruct (unknown_long_option_fails test_atoi test_atof
              test_count_string "bogus") as [_ Hparse].
  - by intros o [->|[->|[]%elem_of_nil]%elem_of_cons]%elem_of_cons.
  - apply Hparse. vm_compute. apply list_elem_of_here.
Defined.

Lemma dangling_parameter_option_fails_test :
  (parse test_atoi test_atof ["testExe"; "-vvv"; "-S"]
     test_count_string (test_world 0)).1.1 = false.
Proof. apply dangling_parameter_option_fails. reflexivity. Defined.

Lemma parse_positional_only_test :
  let '(ok, p', w') :=
    parse test_atoi test_atof ["testExe"; "File1"; "-"; ""]
      test_count_string (test_world 0) in
  ok = true
  ∧ options p' = options test_count_string
  ∧ getRemainingArgs p' = ["File1"; "-"; ""]
  ∧ heap w' = heap (test_world 0).
Proof.
  apply (parse_positional_only test_atoi test_atof ["testExe"; "File1"; "-"; ""]
           test_count_string (test_world 0)).
  by repeat constructor.
Defined.

Lemma long_string_option_takes_next_token_test :
  handleOption test_atoi test_atof "--string" ["-vvv"; "File1"]
    test_count_string (test_world 0)
  = (1, set_options [test_verbose; set_isSet true test_string] test_count_string,
     store_str 0 (Some "-vvv") (test_world 0)).
Proof.
  apply (long_string_option_takes_next_token test_atoi test_atof 1 test_string
           "-vvv" ["File1"] test_count_string (test_world 0)).
  - reflexivity.
  - intros [|j] oj Hj Hlt; [|lia]. by injection Hj as <-.
  - by left.
  - reflexivity.
Defined.

Lemma option_set_iff_invoked_test :
  options (parse test_atoi test_atof
             ["testExe"; "-vvv"; "-S"; "something"; "somefile"]
             test_count_string (test_world 0)).1.2 !! 1%nat
  = Some (set_isSet true test_string).
Proof.
  apply (option_set_iff_invoked test_atoi test_atof 1 test_string
           ["testExe"; "-vvv"; "-S"; "something"; "somefile"]
           test_count_string (test_world 0) _
           (parse test_atoi test_atof
              ["testExe"; "-vvv"; "-S"; "something"; "somefile"]
              test_count_string (test_world 0)).2).
  - exact test_string_names_unique.
  - reflexivity.
Defined.

Lemma test_required_names_unique :
  names_unique_at 0 (OptionString "S" "string" "some string" true 0)
    (options test_required).
Proof. split; [reflexivity|]. by intros [|[|j]] o' Hj Hne. Qed.

Lemma required_option_not_given_fails_test :
  (parse test_atoi test_atof ["testExe"; "File1"] test_required (test_world 0)).1.1
  = false.
Proof.
  apply (required_option_not_given_fails test_atoi test_atof 0
           (OptionString "S" "string" "some string" true 0)).
  - exact test_required_names_unique.
  - reflexivity.
  - reflexivity.
  - reflexivity.
Defined.

Lemma second_parse_fails_test :
  (parse test_atoi test_atof ["testExe"; "--string"; "b"]
     (parse test_atoi test_atof ["testExe"; "-S"; "a"]
        test_count_string (test_world 0)).1.2
     (parse test_atoi test_atof ["testExe"; "-S"; "a"]
        test_count_string (test_world 0)).2).1.1
  = false.
Proof.
  apply (second_parse_fails test_atoi test_atof 1 test_string
           ["testExe"; "-S"; "a"] ["testExe"; "--string"; "b"]
           test_count_string (test_world 0) _
           (parse test_atoi test_atof ["testExe"; "-S"; "a"]
              test_count_string (test_world 0)).2).
  - exact test_string_names_unique.
  - discriminate.
  - reflexivity.
  - vm_compute. lia.
  - vm_compute. lia.
Defined.

(** ** Results, flags and path validation *)

Section Results.

Context {float : Type}.
Variable atoi : string → Z.
Variable atof : string → float.
Variable fopen_rb : option string → bool.

Implicit Types (opt o : Option) (opts : list Option) (argv more toks : list string).
Implicit Types (w : World float) (p : Parser).

Lemma path_checks_agree (fopen1 fopen2 : option string → bool)
    opts opts' (m1 m2 : Memory float) :
  same_decls opts opts' →
  (∀ o, o ∈ opts → type o = OptionType.PathExisting →
     fopen1 (strs m1 (valuePointer o)) = fopen2 (strs m2 (valuePointer o))) →
  forallb (path_readable fopen1 m1) (List.filter is_PathExisting opts)
  = forallb (path_readable fopen2 m2) (List.filter is_PathExisting opts')
  ∧ map not_readable
      (List.filter (λ o, negb (path_readable fopen1 m1 o))
         (List.filter is_PathExisting opts))
    = map not_readable
        (List.filter (λ o, negb (path_readable fopen2 m2 o))
           (List.filter is_PathExisting opts')).
Proof.
  induction 1 as [|o o' opts opts' Hd _ IH]; intros Hopen; [done|].
  destruct IH as [IHres IHlog].
  { intros x Hx. apply Hopen. by apply list_elem_of_further. }
  destruct (decl_fields _ _ Hd) as (Ht & Hs & Hl & Hv & _).
  pose proof (Hopen o (list_elem_of_here _ _)) as Ho.
  cbn [List.filter].
  assert (is_PathExisting o' = is_PathExisting o) as ->
    by (unfold is_PathExisting; by rewrite Ht).
  destruct (is_PathExisting o) eqn:Hpath; [|done].
  apply bool_decide_eq_true in Hpath. specialize (Ho Hpath).
  cbn [List.filter forallb].
  assert (path_readable fopen2 m2 o' = path_readable fopen1 m1 o) as ->
    by (unfold path_readable; by rewrite Ho, Hv).
  assert (not_readable o' = not_readable o) as Hn
    by (unfold not_readable; by rewrite Hs, Hl).
  destruct (path_readable fopen1 m1 o); cbn [negb andb map]; [done|].
  split; [done|]. by rewrite IHlog, Hn.
Qed.

(** X20: [handleOption] returns -1, 0 or 1, and 1 only for an option token
    that takes a parameter and has a token after it: the index of the scan
    never passes the end of the command line. *)
Theorem handleOption_result arg more p w :
  let r := (handleOption atoi atof arg more p w).1.1 in
  r = -1
  ∨ (r = 0 ∧ takes_parameter (options p) arg = false)
  ∨ (r = 1 ∧ takes_parameter (options p) arg = true ∧ more ≠ []).
Proof.
  destruct (handleOption atoi atof arg more p w) as [[r p'] w'] eqn:Hstep. simpl.
  destruct (handleOption_general _ _ _ _ _ _ _ _ _ Hstep) as (_ & _ & _ & _ & Hres).
  destruct Hres as [[-> _]|(_ & -> & Hnext)]; [by left|right].
  destruct (takes_parameter (options p) arg); [right|by left].
  split_and!; [done..|]. destruct (Hnext eq_refl) as [s Hs]. by intros ->.
Qed.

Lemma set_flags_true_applied opts k o argv w r o' w' :
  opts !! k = Some o → ApplyOutcome atoi atof o argv w r o' w' →
  set_flags_true opts (heap w) → set_flags_true (<[k := o']> opts) (heap w').
Proof.
  intros Hk Happ Hflags.
  destruct (ApplyOutcome_never_reset _ _ _ _ _ _ _ _ Happ) as [Hkeep _].
  intros x [j Hj]%list_elem_of_lookup_1 Hx Hset.
  apply list_lookup_insert_Some in Hj as [(-> & <- & _)|[Hne Hj]].
  - apply list_elem_of_lookup_2 in Hk.
    destruct Happ; simpl in *; try congruence.
    + by apply Hflags.
    + by rewrite requiresParameter_type, Hx in *.
    + by rewrite fn_lookup_insert.
    + by destruct H as [|[|]]; congruence.
  - apply Hkeep, Hflags; [by eapply list_elem_of_lookup_2|done..].
Qed.

(** X21: whatever a parse returns, every Flag option that is set has true
    in its variable, provided this held before (as it does when no option
    is set). *)
Theorem parse_set_flags_true argv p w :
  set_flags_true (options p) (heap w) →
  set_flags_true (options (parse atoi atof argv p w).1.2)
    (heap (parse atoi atof argv p w).2).
Proof.
  intros Hflags.
  destruct (parse atoi atof argv p w) as [[ok p'] w'] eqn:Hparse. simpl.
  refine (parse_rule atoi atof (λ _ opts w1, set_flags_true opts (heap w1))
            _ _ _ _ _ _ _ _ Hparse Hflags).
  - intros opts k o argv' w0 r o' w0' Hk Happ HI.
    by eapply set_flags_true_applied.
  - done.
Qed.

(** X22: what [validatePathOptions] returns and reports depends on nothing
    but the declarations and, for each PathExisting option, on whether
    [fopen] opens the path its variable holds: [isSet] plays no part, so
    that an option no command line gave is checked like one that was given;
    and the call changes no variable of the caller. *)
Theorem validatePathOptions_depends_on_paths
    (fopen1 fopen2 : option string → bool) p q (w1 w2 : World float) :
  same_decls (options p) (options q) →
  (∀ o, o ∈ options p → type o = OptionType.PathExisting →
     fopen1 (strs (heap w1) (valuePointer o))
     = fopen2 (strs (heap w2) (valuePointer o))) →
  (validatePathOptions fopen1 p w1).1 = (validatePathOptions fopen2 q w2).1
  ∧ (∃ l, stderr (validatePathOptions fopen1 p w1).2 = (stderr w1 ++ l)%list
          ∧ stderr (validatePathOptions fopen2 q w2).2 = (stderr w2 ++ l)%list)
  ∧ heap (validatePathOptions fopen1 p w1).2 = heap w1
  ∧ heap (validatePathOptions fopen2 q w2).2 = heap w2.
Proof.
  intros Hsame Hopen. unfold validatePathOptions.
  destruct (validateLoop_all fopen1 (options p) true w1) as (-> & -> & ->).
  destruct (validateLoop_all fopen2 (options q) true w2) as (-> & -> & ->).
  destruct (path_checks_agree fopen1 fopen2 _ _ (heap w1) (heap w2) Hsame Hopen)
    as [-> ->].
  split_and!; eauto.
Qed.

End Results.

Lemma parse_set_flags_true_test :
  set_flags_true
    (options (parse test_atoi test_atof ["testExe"; "-D"; "-D"]
                test_types (test_world 0)).1.2)
    (heap (parse test_atoi test_atof ["testExe"; "-D"; "-D"]
             test_types (test_world 0)).2).
Proof.
  apply (parse_set_flags_true test_atoi test_atof ["testExe"; "-D"; "-D"]
           test_types (test_world 0)).
  intros o Hin Ht Hset. simpl in Hin.
  repeat (apply elem_of_cons in Hin as [->|Hin]; [done|]).
  by apply elem_of_nil in Hin.
Defined.

Lemma validatePathOptions_depends_on_paths_test :
  (validatePathOptions (test_fopen ["a.txt"]) test_path
     (mkWorld (mkMemory (λ _, false) (λ _, 0) (λ _, "0") (λ _, Some "b.txt")) [])).1
  = false
  ∧ (validatePathOptions (test_fopen ["a.txt"])
       (parse test_atoi test_atof ["testExe"; "-S"; "b.txt"]
          test_path (test_world 0)).1.2
       (parse test_atoi test_atof ["testExe"; "-S"; "b.txt"]
          test_path (test_world 0)).2).1
    = false.
Proof.
  split; [reflexivity|].
  refine (eq_trans (eq_sym (proj1 (validatePathOptions_depends_on_paths
            (test_fopen ["a.txt"]) (test_fopen ["a.txt"]) test_path
            (parse test_atoi test_atof ["testExe"; "-S"; "b.txt"]
               test_path (test_world 0)).1.2
            (mkWorld (mkMemory (λ _, false) (λ _, 0) (λ _, "0") (λ _, Some "b.txt")) [])
            (parse test_atoi test_atof ["testExe"; "-S"; "b.txt"]
               test_path (test_world 0)).2 _ _))) _); [| |reflexivity].
  - repeat constructor.
  - intros o Hin _. simpl in Hin.
    apply elem_of_cons in Hin as [->|Hin]; [reflexivity|].
    by apply elem_of_nil in Hin.
Defined.
